(** * Scene: the start / update / draw loop of the course game engine

    A shallow embedding of the two [Scene] classes of the repository (the
    one with logical coordinates and a camera, and the older one with the
    hard-coded letterbox), and the properties of their [_start], [update]
    and [draw] entry points.

    - Numbers that take part in the viewport arithmetic are IEEE-754
      binary64 values, as JavaScript numbers are: they are embedded as
      Rocq's primitive floats, so every [/], [-], [+], [*] and [<] below
      rounds and compares as the engine does.  The [layer] of a game
      object is documented as an integer; it is embedded as [Z], on which
      [a.layer - b.layer] and [layer == -1] are exact.
    - The rendering context is a record with the canvas size, the drawing
      state ([transform], [fillStyle], [filter]) and the stack that
      [save] and [restore] work on.
    - A method of a game object is a function of the context it is handed
      to an outcome: it returns or throws, and leaves a context.  The
      entry points are computations in a state and exception monad over
      a world made of the context, the store of arrays, and the trace of
      what the scene did: its calls on the context and the methods it
      invoked.  The trace is what the theorems talk about.
    - Arrays live in a store, so that [[...this.gameObjects]] is a new
      array and [sort], which sorts in place, cannot touch the original. *)

From Stdlib Require Import Floats ZArith String List Bool Lia.
From Stdlib Require Import Sorting.Permutation Sorting.Sorted.
Import ListNotations.

Set Implicit Arguments.

(* ================================================================== *)
(** ** The 2D rendering context *)
(* ================================================================== *)

Module Canvas.

(** The current transformation matrix is kept symbolically, as the
    sequence of [translate] and [scale] calls that built it (oldest
    first): two contexts with the same sequence have the same matrix. *)
Inductive TransformOp : Type :=
| Translate (x y : float)
| Scale (x y : float).

(** The part of the context that [save] pushes and [restore] pops. *)
Record DrawingState : Type := mkDrawingState {
  transform : list TransformOp;
  fillStyle : string;
  filter : string
}.

Record Context : Type := mkContext {
  canvasWidth : float;
  canvasHeight : float;
  current : DrawingState;
  saved : list DrawingState
}.

Definition withCurrent (d : DrawingState) (c : Context) : Context :=
  mkContext (canvasWidth c) (canvasHeight c) d (saved c).

(** [ctx.fillStyle = v] *)
Definition setFillStyle (v : string) (c : Context) : Context :=
  withCurrent (mkDrawingState (transform (current c)) v (filter (current c))) c.

(** [ctx.filter = v] *)
Definition setFilter (v : string) (c : Context) : Context :=
  withCurrent (mkDrawingState (transform (current c)) (fillStyle (current c)) v) c.

Definition applyOp (op : TransformOp) (c : Context) : Context :=
  withCurrent
    (mkDrawingState (transform (current c) ++ [op])
                    (fillStyle (current c)) (filter (current c))) c.

(** [ctx.translate(x, y)] and [ctx.scale(x, y)] *)
Definition translate (x y : float) : Context -> Context := applyOp (Translate x y).
Definition scale (x y : float) : Context -> Context := applyOp (Scale x y).

(** [ctx.save()] pushes a copy of the drawing state. *)
Definition save (c : Context) : Context :=
  mkContext (canvasWidth c) (canvasHeight c) (current c) (current c :: saved c).

(** [ctx.restore()] pops the last saved state; with nothing saved it does
    nothing. *)
Definition restore (c : Context) : Context :=
  match saved c with
  | [] => c
  | d :: rest => mkContext (canvasWidth c) (canvasHeight c) d rest
  end.

End Canvas.

Import Canvas.

(* ================================================================== *)
(** ** Game objects, the camera and the world *)
(* ================================================================== *)

(** A thrown JavaScript value. *)
Definition Exn : Type := string.

(** What a [start], [update] or [draw] method of a game object does with
    the rendering context it is handed: it returns, or it throws, and in
    both cases leaves the context in some state. *)
Inductive HookResult : Type :=
| Returns (c : Context)
| Throws (e : Exn) (c : Context).

Definition Hook : Type := Context -> HookResult.

(** A game object as the scene sees it: a [layer] and three optional
    methods ([None] when the property is absent). *)
Record GameObject : Type := mkGameObject {
  layer : Z;
  go_start : option Hook;
  go_update : option Hook;
  go_draw : option Hook
}.

(** [Camera.main.transform], which [draw] reads and never writes. *)
Module Camera.
Record Transform : Type := mkTransform {
  x : float;
  y : float;
  scaleX : float;
  scaleY : float
}.
End Camera.

Inductive HookKind : Type := OnStart | OnUpdate | OnDraw.

(** What a scene does, in the order it does it: its own calls on the
    rendering context, and the methods it invokes, each with the context
    the method was entered with. *)
Inductive Event : Type :=
| CallFillStyle (v : string)
| CallFillRect (x y w h : float)
| CallSave
| CallRestore
| CallTranslate (x y : float)
| CallScale (x y : float)
| CallFilter (v : string)
| SceneStart (entry : Context)
| Invoke (k : HookKind) (o : GameObject) (entry : Context).

(** Arrays live in a store and are named by their index in it, so that a
    copy and its original are different arrays. *)
Definition Loc : Type := nat.

Record World : Type := mkWorld {
  ctx : Context;
  heap : list (list GameObject);
  trace : list Event
}.

(* ================================================================== *)
(** ** Computations that may throw *)
(* ================================================================== *)

Inductive Result (A : Type) : Type :=
| Normal (a : A) (w : World)
| Raise (e : Exn) (w : World).

Arguments Raise {A} e w.

Definition M (A : Type) : Type := World -> Result A.

Definition ret {A : Type} (a : A) : M A := fun w => Normal a w.

Definition bind {A B : Type} (m : M A) (k : A -> M B) : M B :=
  fun w =>
    match m w with
    | Normal a w' => k a w'
    | Raise e w' => Raise e w'
    end.

Notation "x <- m ;; k" := (bind m (fun x => k))
  (at level 61, m at next level, right associativity).
Notation "m ;;; k" := (bind m (fun _ => k))
  (at level 61, right associativity).

Definition resWorld {A : Type} (r : Result A) : World :=
  match r with
  | Normal _ w => w
  | Raise _ w => w
  end.

Definition isNormal {A : Type} (r : Result A) : bool :=
  match r with
  | Normal _ _ => true
  | Raise _ _ => false
  end.

(** One call of the scene on the context: recorded, then performed. *)
Definition call (ev : Event) (f : Context -> Context) : M unit :=
  fun w => Normal tt (mkWorld (f (ctx w)) (heap w) (trace w ++ [ev])).

Definition ctx_setFillStyle (v : string) : M unit :=
  call (CallFillStyle v) (setFillStyle v).
Definition ctx_setFilter (v : string) : M unit :=
  call (CallFilter v) (setFilter v).
Definition ctx_save : M unit := call CallSave save.
Definition ctx_restore : M unit := call CallRestore restore.
Definition ctx_translate (x y : float) : M unit :=
  call (CallTranslate x y) (translate x y).
Definition ctx_scale (x y : float) : M unit :=
  call (CallScale x y) (scale x y).
(** The pixels are not modelled: [fillRect] leaves the drawing state as
    it is. *)
Definition ctx_fillRect (x y w h : float) : M unit :=
  call (CallFillRect x y w h) (fun c => c).

(** [ctx.canvas.width] and [ctx.canvas.height] *)
Definition canvas_width : M float := fun w => Normal (canvasWidth (ctx w)) w.
Definition canvas_height : M float := fun w => Normal (canvasHeight (ctx w)) w.

(** [h(ctx)]: the method runs on the context as it is now. *)
Definition invoke (ev : Context -> Event) (h : Hook) : M unit :=
  fun w =>
    let t := trace w ++ [ev (ctx w)] in
    match h (ctx w) with
    | Returns c => Normal tt (mkWorld c (heap w) t)
    | Throws e c => Raise e (mkWorld c (heap w) t)
    end.

(** [for (const o of l) { body }] *)
Fixpoint forOf {A : Type} (body : A -> M unit) (l : list A) : M unit :=
  match l with
  | [] => ret tt
  | o :: rest => body o ;;; forOf body rest
  end.

(** Reading an array. *)
Definition readArray (a : Loc) : M (list GameObject) :=
  fun w => Normal (nth a (heap w) []) w.

(** [[...a]]: a new array with the elements of [a]. *)
Definition spread (a : Loc) : M Loc :=
  fun w =>
    Normal (List.length (heap w))
           (mkWorld (ctx w) (heap w ++ [nth a (heap w) []]) (trace w)).

(** [store[i] = v], for a location [i] of the store; there is no other
    location to write to. *)
Fixpoint writeAt {A : Type} (i : nat) (v : A) (l : list A) : list A :=
  match l, i with
  | [], _ => []
  | _ :: rest, O => v :: rest
  | u :: rest, S j => u :: writeAt j v rest
  end.

(** [Array.prototype.sort] with a comparison function: the array is
    sorted in place and the same array is returned.  The sort is stable
    (ECMAScript 2019): an element moves before another only when the
    comparison function says it is greater. *)
Section Sort.
Variable A : Type.
Variable compareFn : A -> A -> Z.

Fixpoint insertSorted (v : A) (l : list A) : list A :=
  match l with
  | [] => [v]
  | u :: rest =>
      if (0 <? compareFn v u)%Z then u :: insertSorted v rest
      else v :: u :: rest
  end.

Fixpoint sorted (l : list A) : list A :=
  match l with
  | [] => []
  | v :: rest => insertSorted v (sorted rest)
  end.
End Sort.

Definition sort (a : Loc) (compareFn : GameObject -> GameObject -> Z) : M Loc :=
  fun w =>
    Normal a
           (mkWorld (ctx w)
                    (writeAt a (sorted compareFn (nth a (heap w) [])) (heap w))
                    (trace w)).

(** A [let] without initialiser holds [undefined], which a canvas method
    reads as NaN. *)
Definition toNumber (v : option float) : float :=
  match v with
  | Some n => n
  | None => nan
  end.

(** [(a, b) => a.layer - b.layer] *)
Definition byLayer (a b : GameObject) : Z := (layer a - layer b)%Z.

(** The body of the loop of [draw], the same in both classes. *)
Definition drawObject (gameObject : GameObject) : M unit :=
  (if (layer gameObject =? -1)%Z then ctx_setFilter "blur(2px)"
   else ctx_setFilter "none") ;;;
  match go_draw gameObject with
  | Some h => invoke (Invoke OnDraw gameObject) h
  | None => ret tt
  end.

(** The bodies of the loops of [_start] and [update]. *)
Definition startObject (gameObject : GameObject) : M unit :=
  match go_start gameObject with
  | Some h => invoke (Invoke OnStart gameObject) h
  | None => ret tt
  end.

Definition updateObject (gameObject : GameObject) : M unit :=
  match go_update gameObject with
  | Some h => invoke (Invoke OnUpdate gameObject) h
  | None => ret tt
  end.

(* ================================================================== *)
(** ** The scene with logical coordinates and a camera *)
(* ================================================================== *)

Module Scene.

Record t : Type := mk {
  backgroundColor : string;
  gameObjects : Loc;
  hasStarted : bool;
  logicalWidth : float;
  aspectRatio : float;
  start : option Hook
}.

Definition setStarted (this : t) : t :=
  mk (backgroundColor this) (gameObjects this) true
     (logicalWidth this) (aspectRatio this) (start this).

(** [_start(ctx)]; the scene comes back with its flag as the call left
    it, also when a method threw. *)
Definition _start (this : t) : World -> t * Result unit :=
  fun w =>
    if negb (hasStarted this) then
      (setStarted this,
       ((match start this with
         | Some h => invoke SceneStart h
         | None => ret tt
         end) ;;;
        l <- readArray (gameObjects this) ;;
        forOf startObject l) w)
    else (this, Normal tt w).

(** [update(ctx)] *)
Definition update (this : t) : M unit :=
  l <- readArray (gameObjects this) ;;
  forOf updateObject l.

(** [draw(ctx)] *)
Definition draw (cam : Camera.Transform) (this : t) : M unit :=
  ctx_setFillStyle (backgroundColor this) ;;;
  cw <- canvas_width ;; ch <- canvas_height ;;
  ctx_fillRect 0 0 cw ch ;;;
  ctx_save ;;;
  ch <- canvas_height ;; cw <- canvas_width ;;
  let windowAspectRatio := (ch / cw)%float in
  let usingLogicalCoordinates :=
    (0 <? logicalWidth this)%float && (0 <? aspectRatio this)%float in
  boxes <-
    (if usingLogicalCoordinates then
       if (windowAspectRatio <? aspectRatio this)%float then
         cw <- canvas_width ;; ch <- canvas_height ;;
         let letterBox1End := (cw / 2 - (ch / aspectRatio this) / 2)%float in
         cw <- canvas_width ;; ch <- canvas_height ;;
         let letterBox2Start := (cw / 2 + (ch / aspectRatio this) / 2)%float in
         ctx_translate letterBox1End 0 ;;;
         ch <- canvas_height ;;
         let scaleFactor := (ch / logicalWidth this)%float in
         ctx_scale scaleFactor scaleFactor ;;;
         ret (Some letterBox1End, Some letterBox2Start)
       else
         ch <- canvas_height ;; cw <- canvas_width ;;
         let letterBox1End := (ch / 2 - (cw * aspectRatio this) / 2)%float in
         cw <- canvas_width ;; ch <- canvas_height ;;
         let letterBox2Start := ((cw * aspectRatio this) / 2 + ch / 2)%float in
         ctx_translate 0 letterBox1End ;;;
         cw <- canvas_width ;;
         let scaleFactor := (cw / (logicalWidth this / aspectRatio this))%float in
         ctx_scale scaleFactor scaleFactor ;;;
         ret (Some letterBox1End, Some letterBox2Start)
     else ret (None, None)) ;;
  let letterBox1End := fst boxes in
  let letterBox2Start := snd boxes in
  ctx_scale (Camera.scaleX cam) (Camera.scaleY cam) ;;;
  ctx_translate (- Camera.x cam)%float (- Camera.y cam)%float ;;;
  sortedLayers <- spread (gameObjects this) ;;
  sortedLayers <- sort sortedLayers byLayer ;;
  l <- readArray sortedLayers ;;
  forOf drawObject l ;;;
  ctx_restore ;;;
  ctx_setFillStyle "black" ;;;
  if usingLogicalCoordinates then
    if (windowAspectRatio <? aspectRatio this)%float then
      ch <- canvas_height ;;
      ctx_fillRect 0 0 (toNumber letterBox1End) ch ;;;
      cw <- canvas_width ;; ch <- canvas_height ;;
      ctx_fillRect (toNumber letterBox2Start) 0 cw ch
    else
      cw <- canvas_width ;;
      ctx_fillRect 0 0 cw (toNumber letterBox1End) ;;;
      cw <- canvas_width ;; ch <- canvas_height ;;
      ctx_fillRect 0 (toNumber letterBox2Start) cw ch
  else ret tt.

End Scene.

(* ================================================================== *)
(** ** The older scene, with the hard-coded letterbox *)
(* ================================================================== *)

Module HardcodedScene.

Record t : Type := mk {
  backgroundColor : string;
  gameObjects : Loc;
  hasStarted : bool;
  start : option Hook
}.

Definition setStarted (this : t) : t :=
  mk (backgroundColor this) (gameObjects this) true (start this).

(** [_start(ctx)] *)
Definition _start (this : t) : World -> t * Result unit :=
  fun w =>
    if negb (hasStarted this) then
      (setStarted this,
       ((match start this with
         | Some h => invoke SceneStart h
         | None => ret tt
         end) ;;;
        l <- readArray (gameObjects this) ;;
        forOf startObject l) w)
    else (this, Normal tt w).

(** [update(ctx)] *)
Definition update (this : t) : M unit :=
  l <- readArray (gameObjects this) ;;
  forOf updateObject l.

(** [draw(ctx)] *)
Definition draw (this : t) : M unit :=
  ctx_setFillStyle (backgroundColor this) ;;;
  cw <- canvas_width ;; ch <- canvas_height ;;
  ctx_fillRect 0 0 cw ch ;;;
  ctx_save ;;;
  let logicalWidth := 20%float in
  let aspectRatio := 100%float in
  cw <- canvas_width ;; ch <- canvas_height ;;
  boxes <-
    (if (ch <? cw)%float then
       cw <- canvas_width ;; ch <- canvas_height ;;
       let letterBox1End := (cw / 2 - (ch / aspectRatio) / 2)%float in
       cw <- canvas_width ;; ch <- canvas_height ;;
       let letterBox2Start := (cw / 2 + (ch / aspectRatio) / 2)%float in
       ctx_translate letterBox1End 0 ;;;
       ch <- canvas_height ;;
       let scaleFactor := (ch / logicalWidth)%float in
       ctx_scale scaleFactor scaleFactor ;;;
       ret (Some letterBox1End, Some letterBox2Start)
     else
       ch <- canvas_height ;; cw <- canvas_width ;;
       let letterBox1End := ((ch - cw) / 2)%float in
       cw <- canvas_width ;; ch <- canvas_height ;;
       let letterBox2Start := ((cw + ch) / 2)%float in
       ctx_translate 0 letterBox1End ;;;
       cw <- canvas_width ;;
       let scaleFactor := (cw / logicalWidth)%float in
       ctx_scale scaleFactor scaleFactor ;;;
       ret (Some letterBox1End, Some letterBox2Start)) ;;
  let letterBox1End := fst boxes in
  let letterBox2Start := snd boxes in
  sortedLayers <- spread (gameObjects this) ;;
  sortedLayers <- sort sortedLayers byLayer ;;
  l <- readArray sortedLayers ;;
  forOf drawObject l ;;;
  ctx_restore ;;;
  ctx_setFillStyle "black" ;;;
  cw <- canvas_width ;; ch <- canvas_height ;;
  if (ch <? cw)%float then
    ch <- canvas_height ;;
    ctx_fillRect 0 0 (toNumber letterBox1End) ch ;;;
    cw <- canvas_width ;; ch <- canvas_height ;;
    ctx_fillRect (toNumber letterBox2Start) 0 cw ch
  else
    cw <- canvas_width ;;
    ctx_fillRect 0 0 cw (toNumber letterBox1End) ;;;
    cw <- canvas_width ;; ch <- canvas_height ;;
    ctx_fillRect 0 (toNumber letterBox2Start) cw ch.

End HardcodedScene.

(* ================================================================== *)
(** ** Reading a trace *)
(* ================================================================== *)

Definition isSceneCall (ev : Event) : bool :=
  match ev with
  | SceneStart _ | Invoke _ _ _ => false
  | _ => true
  end.

(** The scene's own calls on the rendering context. *)
Definition sceneCalls (evs : list Event) : list Event :=
  List.filter isSceneCall evs.

(** The events a computation added to the trace of the world it started
    in. *)
Definition emitted {A : Type} (w : World) (r : Result A) : list Event :=
  skipn (List.length (trace w)) (trace (resWorld r)).

(** The method of kind [k] of a game object, if it has one. *)
Definition hookOf (k : HookKind) (o : GameObject) : option Hook :=
  match k with
  | OnStart => go_start o
  | OnUpdate => go_update o
  | OnDraw => go_draw o
  end.

Definition has (k : HookKind) (o : GameObject) : bool :=
  match hookOf k o with
  | Some _ => true
  | None => false
  end.

(** The methods of game objects that were invoked, in order. *)
Fixpoint invocations (evs : list Event) : list (HookKind * GameObject) :=
  match evs with
  | [] => []
  | Invoke k o _ :: rest => (k, o) :: invocations rest
  | _ :: rest => invocations rest
  end.

(** The context a method left behind. *)
Definition leaves (r : HookResult) : Context :=
  match r with
  | Returns c => c
  | Throws _ c => c
  end.

(** A method that leaves the stack of saved states as it found it: every
    [save] it does is undone by a [restore] of its own, and it pops
    nothing it did not push. *)
Definition balanced (h : Hook) : Prop :=
  forall c, saved (leaves (h c)) = saved c.

(** The filter [draw] sets before it draws a game object. *)
Definition filterFor (o : GameObject) : string :=
  if (layer o =? -1)%Z then "blur(2px)"%string else "none"%string.

(** What a call of the scene does to the context. *)
Definition perform (ev : Event) (c : Context) : Context :=
  match ev with
  | CallFillStyle v => setFillStyle v c
  | CallFillRect _ _ _ _ => c
  | CallSave => save c
  | CallRestore => restore c
  | CallTranslate x y => translate x y c
  | CallScale x y => scale x y c
  | CallFilter v => setFilter v c
  | SceneStart _ | Invoke _ _ _ => c
  end.

Definition performAll (evs : list Event) (c : Context) : Context :=
  fold_left (fun c ev => perform ev c) evs c.

(** The order in which [draw] goes through the game objects of the array
    [a]. *)
Definition drawOrder (a : Loc) (w : World) : list GameObject :=
  sorted byLayer (nth a (heap w) []).

(** The calls of [Scene.draw] around its loop, for a context [c] at entry
    and a context [c'] after the loop. *)
Definition usingLogicalCoordinates (this : Scene.t) : bool :=
  ((0 <? Scene.logicalWidth this)%float && (0 <? Scene.aspectRatio this)%float)%bool.

Definition windowAspectRatio (c : Context) : float :=
  (canvasHeight c / canvasWidth c)%float.

Definition barsAtSides (this : Scene.t) (c : Context) : bool :=
  (windowAspectRatio c <? Scene.aspectRatio this)%float.

Definition letterboxCalls (this : Scene.t) (c : Context) : list Event :=
  let cw := canvasWidth c in
  let ch := canvasHeight c in
  let ar := Scene.aspectRatio this in
  let lw := Scene.logicalWidth this in
  if usingLogicalCoordinates this then
    if barsAtSides this c then
      [CallTranslate (cw / 2 - (ch / ar) / 2)%float 0;
       CallScale (ch / lw)%float (ch / lw)%float]
    else
      [CallTranslate 0 (ch / 2 - (cw * ar) / 2)%float;
       CallScale (cw / (lw / ar))%float (cw / (lw / ar))%float]
  else [].

Definition cameraCalls (cam : Camera.Transform) : list Event :=
  [CallScale (Camera.scaleX cam) (Camera.scaleY cam);
   CallTranslate (- Camera.x cam)%float (- Camera.y cam)%float].

Definition barCalls (this : Scene.t) (c c' : Context) : list Event :=
  let cw := canvasWidth c in
  let ch := canvasHeight c in
  let ar := Scene.aspectRatio this in
  if usingLogicalCoordinates this then
    if barsAtSides this c then
      [CallFillRect 0 0 (cw / 2 - (ch / ar) / 2)%float (canvasHeight c');
       CallFillRect (cw / 2 + (ch / ar) / 2)%float 0 (canvasWidth c') (canvasHeight c')]
    else
      [CallFillRect 0 0 (canvasWidth c') (ch / 2 - (cw * ar) / 2)%float;
       CallFillRect 0 ((cw * ar) / 2 + ch / 2)%float (canvasWidth c') (canvasHeight c')]
  else [].

Definition prologue (cam : Camera.Transform) (this : Scene.t) (c : Context) : list Event :=
  [CallFillStyle (Scene.backgroundColor this);
   CallFillRect 0 0 (canvasWidth c) (canvasHeight c);
   CallSave]
  ++ letterboxCalls this c ++ cameraCalls cam.

Definition epilogue (this : Scene.t) (c c' : Context) : list Event :=
  [CallRestore; CallFillStyle "black"] ++ barCalls this c c'.

(** What [Scene.draw] does once its loop is over, or was left by a
    throw; [c] is the context [draw] was entered with. *)
Definition finishDraw (this : Scene.t) (c : Context) (r : Result unit) : Result unit :=
  match r with
  | Normal _ w2 =>
      let epi := epilogue this c (ctx w2) in
      Normal tt (mkWorld (performAll epi (ctx w2)) (heap w2) (trace w2 ++ epi))
  | Raise e w2 => Raise e w2
  end.

(** [Scene.draw] runs its loop over the game objects, and so every [draw]
    method until one of them changes it, under the transform [t]. *)
Definition drawsUnder (cam : Camera.Transform) (this : Scene.t) (w : World)
    (t : list TransformOp) : Prop :=
  let l := drawOrder (Scene.gameObjects this) w in
  exists c1,
    transform (current c1) = t /\
    Scene.draw cam this w =
    finishDraw this (ctx w)
      (forOf drawObject l
         (mkWorld c1 (heap w ++ [l]) (trace w ++ prologue cam this (ctx w)))).

(** The call with which [draw] sets the filter for a game object. *)
Definition filterCall (o : GameObject) : Event := CallFilter (filterFor o).

(** Worlds and scenes to evaluate the entry points on. *)
Definition blankContext (cw ch : float) : Context :=
  mkContext cw ch (mkDrawingState [] "white" "none") [].

(** A world with one array, at location 0. *)
Definition blankWorld (cw ch : float) (l : list GameObject) : World :=
  mkWorld (blankContext cw ch) [l] [].

Definition sceneWith (lw ar : float) : Scene.t :=
  Scene.mk "navy" 0 false lw ar None.

Definition restingCamera : Camera.Transform := Camera.mkTransform 0 0 1 1.

(** A game object that only has a [draw] method, which draws and returns. *)
Definition sprite (l : Z) : GameObject :=
  mkGameObject l None None (Some (fun c => Returns (setFillStyle "red" c))).

(** A game object whose [draw] calls [ctx.save()] and never restores. *)
Definition leakySprite : GameObject :=
  mkGameObject 0 None None (Some (fun c => Returns (save c))).

(** A game object all of whose methods throw. *)
Definition faultyObject : GameObject :=
  mkGameObject 0 (Some (Throws "start failed"%string))
               (Some (Throws "update failed"%string))
               (Some (Throws "draw failed"%string)).

(** A game object with the three methods, all returning. *)
Definition actor (l : Z) : GameObject :=
  mkGameObject l (Some Returns) (Some Returns) (Some Returns).

(** One game object is not above another. *)
Definition layerLe (a b : GameObject) : Prop := (layer a <= layer b)%Z.

(** The filter the context has when a method is entered is the one of the
    game object's layer. *)
Definition entersWithOwnFilter (o : GameObject) (c : Context) : Prop :=
  filter (current c) = filterFor o.

(** The contexts the [start] method of the scene itself was entered with. *)
Fixpoint sceneStarts (evs : list Event) : list Context :=
  match evs with
  | [] => []
  | SceneStart c :: rest => c :: sceneStarts rest
  | _ :: rest => sceneStarts rest
  end.

(** An invoked method of a game object that returned: it did not throw. *)
Definition returned (ev : Event) : Prop :=
  match ev with
  | Invoke k o c => exists h c', hookOf k o = Some h /\ h c = Returns c'
  | _ => True
  end.

(** An entry point left by a throw of a method of kind [k] of one of the
    game objects [l]: what it did, [evs], ends with the invocation of a
    method of a game object [o] that threw [e] and left the context [c'];
    before that, the methods of the game objects before [o] were invoked,
    and returned; no method of a game object after [o] was invoked. *)
Definition abortedBy (k : HookKind) (l : list GameObject) (evs : list Event)
    (e : Exn) (c' : Context) : Prop :=
  exists before o after h c evs0,
    l = before ++ o :: after /\
    hookOf k o = Some h /\
    h c = Throws e c' /\
    evs = evs0 ++ [Invoke k o c] /\
    invocations evs0 = map (pair k) (List.filter (has k) before) /\
    Forall returned evs0.

(** An entry point that went through the game objects [l] and ended as
    [r] lets the throws of their methods of kind [k] through: if a method
    it invoked threw [e], the entry point was left by that throw of [e],
    with the context as the method left it, and the game objects after
    the one that threw were skipped. *)
Definition propagates (k : HookKind) (l : list GameObject) (w : World)
    (r : Result unit) : Prop :=
  forall o c h e c',
    In (Invoke k o c) (emitted w r) ->
    hookOf k o = Some h ->
    h c = Throws e c' ->
    exists w', r = Raise e w' /\ ctx w' = c' /\ abortedBy k l (emitted w r) e c'.

Definition isSave (ev : Event) : bool :=
  match ev with
  | CallSave => true
  | _ => false
  end.

Definition isRestore (ev : Event) : bool :=
  match ev with
  | CallRestore => true
  | _ => false
  end.

(** The calls of [HardcodedScene.draw] around its loop, for a context [c]
    at entry and a context [c'] after the loop. *)
Definition hardcodedPrologue (this : HardcodedScene.t) (c : Context) : list Event :=
  let cw := canvasWidth c in
  let ch := canvasHeight c in
  [CallFillStyle (HardcodedScene.backgroundColor this);
   CallFillRect 0 0 cw ch;
   CallSave]
  ++ (if (ch <? cw)%float then
        [CallTranslate (cw / 2 - (ch / 100) / 2)%float 0;
         CallScale (ch / 20)%float (ch / 20)%float]
      else
        [CallTranslate 0 ((ch - cw) / 2)%float;
         CallScale (cw / 20)%float (cw / 20)%float]).

Definition hardcodedBoxes (c : Context) : float * float :=
  let cw := canvasWidth c in
  let ch := canvasHeight c in
  if (ch <? cw)%float then
    ((cw / 2 - (ch / 100) / 2)%float, (cw / 2 + (ch / 100) / 2)%float)
  else (((ch - cw) / 2)%float, ((cw + ch) / 2)%float).

Definition hardcodedEpilogue (c c' : Context) : list Event :=
  let letterBox1End := fst (hardcodedBoxes c) in
  let letterBox2Start := snd (hardcodedBoxes c) in
  [CallRestore; CallFillStyle "black"]
  ++ (if (canvasHeight c' <? canvasWidth c')%float then
        [CallFillRect 0 0 letterBox1End (canvasHeight c');
         CallFillRect letterBox2Start 0 (canvasWidth c') (canvasHeight c')]
      else
        [CallFillRect 0 0 (canvasWidth c') letterBox1End;
         CallFillRect 0 letterBox2Start (canvasWidth c') (canvasHeight c')]).

(** What is known of a run of a loop: the scene's own [start] is not
    invoked in it, and each method is entered with a context of which
    [entry] holds. *)
Definition entryRule (entry : GameObject -> Context -> Prop) (ev : Event) : Prop :=
  match ev with
  | Invoke _ o c => entry o c
  | SceneStart _ => False
  | _ => True
  end.

(** The three loop bodies, in the shape the loop lemmas take: the calls
    made before the method is invoked, and what they do to the context. *)
Abbreviation drawEv := (fun o : GameObject => [CallFilter (filterFor o)]).
Abbreviation drawFx := (fun o : GameObject => setFilter (filterFor o)).
Abbreviation noEv := (fun _ : GameObject => @nil Event).
Abbreviation noFx := (fun (_ : GameObject) (c : Context) => c).

(* ================================================================== *)
(** ** The keyboard component of the snake *)
(* ================================================================== *)

(** [KeyboardComponent] extends a [Component] class that is not part of
    the sources: what it takes from it is [this.transform], the transform
    of its game object.  Transforms are objects that several components
    may hold, so they live in a store of their own and are named by their
    index in it; of a transform the component reads and writes [x] and
    [y].  [Input.keysDown] and [Time.deltaTime] are globals that [update]
    reads: they are arguments here. *)
Module KeyboardComponent.

Record Position : Type := mkPosition {
  x : float;
  y : float
}.

Record t : Type := mk {
  up : string;
  down : string;
  left : string;
  right : string;
  (** the [transform] of the next body part, [None] when the field is
      [undefined] *)
  nextBodyPart : option Loc;
  timeLeftToMove : float;
  timeBetweenMoves : float;
  nextMove : string;
  speed : float;
  transform : Loc
}.

(** [constructor()], for a component attached to the game object whose
    transform is [tr]. *)
Definition constructor (tr : Loc) : t :=
  mk "UP" "DOWN" "LEFT" "RIGHT" None 1 1 "DOWN" 10 tr.

Definition setNextMove (v : string) (this : t) : t :=
  mk (up this) (down this) (left this) (right this) (nextBodyPart this)
     (timeLeftToMove this) (timeBetweenMoves this) v (speed this) (transform this).

Definition setTimeLeftToMove (v : float) (this : t) : t :=
  mk (up this) (down this) (left this) (right this) (nextBodyPart this)
     v (timeBetweenMoves this) (nextMove this) (speed this) (transform this).

(** [keysDown.includes(key)] *)
Definition includes (keysDown : list string) (key : string) : bool :=
  existsb (String.eqb key) keysDown.

(** Reading and writing the fields of the transform at a location. *)
Definition position (store : list Position) (a : Loc) : Position :=
  nth a store (mkPosition nan nan).

Definition setX (a : Loc) (v : float) (store : list Position) : list Position :=
  writeAt a (mkPosition v (y (position store a))) store.

Definition setY (a : Loc) (v : float) (store : list Position) : list Position :=
  writeAt a (mkPosition (x (position store a)) v) store.

(** The first block of [update()]: the four tests of [Input.keysDown],
    in the order of the source, each overwriting [nextMove]. *)
Definition readKeys (keysDown : list string) (this : t) : t :=
  let this :=
    if includes keysDown "ArrowLeft" then setNextMove (left this) this else this in
  let this :=
    if includes keysDown "ArrowRight" then setNextMove (right this) this else this in
  let this :=
    if includes keysDown "ArrowUp" then setNextMove (up this) this else this in
  let this :=
    if includes keysDown "ArrowDown" then setNextMove (down this) this else this in
  this.

(** The four tests of [nextMove], in the order of the source, each
    moving the transform of the component by [speed]. *)
Definition moveHead (this : t) (store : list Position) : list Position :=
  let store :=
    if String.eqb (nextMove this) (up this) then
      setY (transform this) (y (position store (transform this)) - speed this)%float store
    else store in
  let store :=
    if String.eqb (nextMove this) (down this) then
      setY (transform this) (y (position store (transform this)) + speed this)%float store
    else store in
  let store :=
    if String.eqb (nextMove this) (left this) then
      setX (transform this) (x (position store (transform this)) - speed this)%float store
    else store in
  let store :=
    if String.eqb (nextMove this) (right this) then
      setX (transform this) (x (position store (transform this)) + speed this)%float store
    else store in
  store.

(** The [while (bodyPart)] loop.  Its first round ends with [break], and
    nothing in it assigns [bodyPart]: it is entered at most once, for
    [nextBodyPart] itself. *)
Definition moveBody (this : t) (movingFromX movingFromY : float)
    (store : list Position) : list Position :=
  match nextBodyPart this with
  | Some bodyPart =>
      let bodyPartOldX := x (position store bodyPart) in
      let bodyPartOldY := y (position store bodyPart) in
      let store := setX bodyPart movingFromX store in
      let store := setY bodyPart movingFromY store in
      let movingFromX := bodyPartOldX in
      let movingFromY := bodyPartOldY in
      store
  | None => store
  end.

(** [update()] *)
Definition update (keysDown : list string) (deltaTime : float)
    (this : t) (store : list Position) : t * list Position :=
  let this := readKeys keysDown this in
  let this := setTimeLeftToMove (timeLeftToMove this - deltaTime)%float this in
  if (timeLeftToMove this <=? 0)%float then
    let this := setTimeLeftToMove (timeBetweenMoves this) this in
    let movingFromX := x (position store (transform this)) in
    let movingFromY := y (position store (transform this)) in
    let store := moveHead this store in
    (this, moveBody this movingFromX movingFromY store)
  else (this, store).

End KeyboardComponent.

(** The directions of a component are four different strings. *)
Definition distinctDirections (this : KeyboardComponent.t) : Prop :=
  NoDup [KeyboardComponent.up this; KeyboardComponent.down this;
         KeyboardComponent.left this; KeyboardComponent.right this].

(** The move a component has chosen is one of its directions. *)
Definition movesAlongAxis (this : KeyboardComponent.t) : Prop :=
  In (KeyboardComponent.nextMove this)
     [KeyboardComponent.up this; KeyboardComponent.down this;
      KeyboardComponent.left this; KeyboardComponent.right this].

(** A snake of three transforms: the head at (50, 50), a body part at
    (50, 40) and a third one at (50, 30). *)
Definition snakeStore : list KeyboardComponent.Position :=
  [KeyboardComponent.mkPosition 50 50;
   KeyboardComponent.mkPosition 50 40;
   KeyboardComponent.mkPosition 50 30].

(** The component of the head, with the body part at location 1 behind. *)
Definition snakeHead : KeyboardComponent.t :=
  KeyboardComponent.mk "UP" "DOWN" "LEFT" "RIGHT" (Some 1) 1 1 "DOWN" 10 0.

(** The frames of a game loop: [update] once per frame, each with the
    keys that are down and the time the frame took. *)
Fixpoint updates (frames : list (list string * float))
    (this : KeyboardComponent.t) (store : list KeyboardComponent.Position)
    : KeyboardComponent.t * list KeyboardComponent.Position :=
  match frames with
  | [] => (this, store)
  | (keysDown, deltaTime) :: rest =>
      let (this', store') := KeyboardComponent.update keysDown deltaTime this store in
      updates rest this' store'
  end.

(** [new Scene(backgroundColor)]: the field initialisers and the
    constructor.  [gameObjects = []] makes a new array for every scene;
    the class has no [start] of its own. *)
Definition Scene_constructor (backgroundColor : string) (w : World) : Scene.t * World :=
  (Scene.mk backgroundColor (List.length (heap w)) false (-1) (-1) None,
   mkWorld (ctx w) (heap w ++ [[]]) (trace w)).

(** The same for the older class. *)
Definition HardcodedScene_constructor (backgroundColor : string) (w : World)
    : HardcodedScene.t * World :=
  (HardcodedScene.mk backgroundColor (List.length (heap w)) false None,
   mkWorld (ctx w) (heap w ++ [[]]) (trace w)).

(** The game objects of an array that are on layer [z]. *)
Definition onLayer (z : Z) (l : list GameObject) : list GameObject :=
  List.filter (fun o => (layer o =? z)%Z) l.

(* ================================================================== *)
(** ** Loops over game objects *)
(* ================================================================== *)

Lemma emitted_app (A : Type) (w : World) (r : Result A) (evs : list Event) :
  trace (resWorld r) = trace w ++ evs -> emitted w r = evs.
Proof.
  unfold emitted. intros ->.
  rewrite skipn_app, skipn_all, Nat.sub_diag. reflexivity.
Qed.

Lemma sceneCalls_app (a b : list Event) :
  sceneCalls (a ++ b) = sceneCalls a ++ sceneCalls b.
Proof. apply filter_app. Qed.

Lemma invocations_app (a b : list Event) :
  invocations (a ++ b) = invocations a ++ invocations b.
Proof.
  induction a as [|e a IH]; simpl; [reflexivity|].
  destruct e; simpl; rewrite ?IH; reflexivity.
Qed.

Lemma sceneCalls_id (evs : list Event) :
  Forall (fun e => isSceneCall e = true) evs -> sceneCalls evs = evs.
Proof.
  induction 1 as [|e evs He _ IH]; simpl; [reflexivity|].
  rewrite He, IH. reflexivity.
Qed.

Lemma invocations_calls (evs : list Event) :
  Forall (fun e => isSceneCall e = true) evs -> invocations evs = [].
Proof.
  induction 1 as [|e evs He _ IH]; simpl; [reflexivity|].
  destruct e; simpl in *; try discriminate; exact IH.
Qed.

Lemma has_some (k : HookKind) (o : GameObject) (h : Hook) :
  hookOf k o = Some h -> has k o = true.
Proof. unfold has. intros ->. reflexivity. Qed.

Lemma has_none (k : HookKind) (o : GameObject) :
  hookOf k o = None -> has k o = false.
Proof. unfold has. intros ->. reflexivity. Qed.

Lemma returned_calls (evs : list Event) :
  Forall (fun e => isSceneCall e = true) evs -> Forall returned evs.
Proof.
  apply Forall_impl. intros [] H; simpl in *; try exact I; discriminate.
Qed.

Section Loop.

Variable k : HookKind.
(** What the body does before it invokes the method: the calls it makes,
    and what they do to the context. *)
Variable preEv : GameObject -> list Event.
Variable preFx : GameObject -> Context -> Context.
Variable body : GameObject -> M unit.

Hypothesis body_eq : forall o w,
  body o w =
  let w1 := mkWorld (preFx o (ctx w)) (heap w) (trace w ++ preEv o) in
  match hookOf k o with
  | Some h => invoke (Invoke k o) h w1
  | None => Normal tt w1
  end.

Hypothesis preEv_calls : forall o, Forall (fun e => isSceneCall e = true) (preEv o).

Lemma loop_heap (l : list GameObject) :
  forall w, heap (resWorld (forOf body l w)) = heap w.
Proof.
  induction l as [|o l IH]; intros w; simpl; [reflexivity|].
  unfold bind. rewrite body_eq. cbv zeta.
  destruct (hookOf k o) as [h|]; unfold invoke; simpl.
  - destruct (h (preFx o (ctx w))); simpl; [rewrite IH|]; reflexivity.
  - rewrite IH. reflexivity.
Qed.

Ltac split_trace o :=
  rewrite !sceneCalls_app, !invocations_app, <- !app_assoc;
  rewrite (sceneCalls_id (preEv_calls o)), (invocations_calls (preEv_calls o)).

Lemma loop_normal (l : list GameObject) :
  forall w u w', forOf body l w = Normal u w' ->
  exists evs,
    trace w' = trace w ++ evs /\
    sceneCalls evs = concat (map preEv l) /\
    invocations evs = map (pair k) (List.filter (has k) l) /\
    Forall returned evs.
Proof.
  induction l as [|o l IH]; intros w u w' H; simpl in H.
  - inversion H; subst. exists []. rewrite app_nil_r. auto.
  - unfold bind in H. rewrite body_eq in H. cbv zeta in H.
    pose proof (returned_calls (preEv_calls o)) as Hpre.
    simpl List.filter.
    destruct (hookOf k o) as [h|] eqn:Hh; unfold invoke in H; simpl in H;
      [rewrite (has_some _ _ Hh) | rewrite (has_none _ _ Hh)].
    + destruct (h (preFx o (ctx w))) as [c|e c] eqn:Hr; [|discriminate].
      apply IH in H. destruct H as (evs & Ht & Hc & Hi & Hret). simpl in Ht.
      exists (preEv o ++ [Invoke k o (preFx o (ctx w))] ++ evs).
      rewrite Ht. split_trace o. simpl. rewrite Hc, Hi.
      repeat split.
      apply Forall_app; split; [exact Hpre|].
      constructor; [simpl; eauto | exact Hret].
    + apply IH in H. destruct H as (evs & Ht & Hc & Hi & Hret). simpl in Ht.
      exists (preEv o ++ evs).
      rewrite Ht. split_trace o. simpl. rewrite Hc, Hi.
      repeat split.
      apply Forall_app; split; assumption.
Qed.

Lemma loop_raise (l : list GameObject) :
  forall w e w', forOf body l w = Raise e w' ->
  exists evs before o after h c,
    trace w' = trace w ++ evs ++ [Invoke k o c] /\
    l = before ++ o :: after /\
    hookOf k o = Some h /\
    h c = Throws e (ctx w') /\
    sceneCalls evs = concat (map preEv (before ++ [o])) /\
    invocations evs = map (pair k) (List.filter (has k) before) /\
    Forall returned evs.
Proof.
  induction l as [|o l IH]; intros w e w' H; simpl in H; [discriminate|].
  unfold bind in H. rewrite body_eq in H. cbv zeta in H.
  pose proof (returned_calls (preEv_calls o)) as Hpre.
  destruct (hookOf k o) as [h|] eqn:Hh; unfold invoke in H; simpl in H.
  - destruct (h (preFx o (ctx w))) as [c|e' c] eqn:Hr.
    + apply IH in H.
      destruct H as (evs & before & o' & after & h' & c' & Ht & Hl & Hh' & Hthrow & Hc & Hi & Hret).
      simpl in Ht.
      exists (preEv o ++ [Invoke k o (preFx o (ctx w))] ++ evs), (o :: before), o', after, h', c'.
      rewrite Ht. split_trace o.
      simpl. rewrite (has_some _ _ Hh), Hc, Hi, Hl.
      repeat split; auto.
      apply Forall_app; split; [exact Hpre|].
      constructor; [simpl; eauto | exact Hret].
    + inversion H; subst. simpl.
      exists (preEv o), [], o, l, h, (preFx o (ctx w)).
      rewrite (sceneCalls_id (preEv_calls o)), (invocations_calls (preEv_calls o)).
      simpl. rewrite app_nil_r, <- app_assoc. auto 10.
  - apply IH in H.
    destruct H as (evs & before & o' & after & h' & c' & Ht & Hl & Hh' & Hthrow & Hc & Hi & Hret).
    simpl in Ht.
    exists (preEv o ++ evs), (o :: before), o', after, h', c'.
    rewrite Ht. split_trace o.
    simpl. rewrite (has_none _ _ Hh), Hc, Hi, Hl.
    repeat split; auto.
    apply Forall_app; split; assumption.
Qed.

(** What holds of the context a method is entered with. *)
Variable entry : GameObject -> Context -> Prop.
Hypothesis preFx_entry : forall o c, entry o (preFx o c).

Lemma entryRule_calls (evs : list Event) :
  Forall (fun e => isSceneCall e = true) evs -> Forall (entryRule entry) evs.
Proof.
  apply Forall_impl. intros [] H; simpl in *; try exact I; discriminate.
Qed.

Lemma loop_entry (l : list GameObject) :
  forall w, exists evs,
    trace (resWorld (forOf body l w)) = trace w ++ evs /\ Forall (entryRule entry) evs.
Proof.
  induction l as [|o l IH]; intros w; simpl.
  - exists []. rewrite app_nil_r. auto.
  - unfold bind. rewrite body_eq. cbv zeta.
    pose proof (entryRule_calls (preEv_calls o)) as Hpre.
    destruct (hookOf k o) as [h|]; unfold invoke; simpl.
    + destruct (h (preFx o (ctx w))) as [c|e c].
      * match goal with |- context [forOf body l ?w1] => destruct (IH w1) as (evs & Ht & He) end.
        simpl in Ht.
        exists (preEv o ++ [Invoke k o (preFx o (ctx w))] ++ evs).
        rewrite Ht, <- !app_assoc. split; [reflexivity|].
        apply Forall_app; split; [exact Hpre|].
        constructor; [apply preFx_entry | exact He].
      * simpl. exists (preEv o ++ [Invoke k o (preFx o (ctx w))]).
        rewrite <- app_assoc. split; [reflexivity|].
        apply Forall_app; split; [exact Hpre|].
        constructor; [apply preFx_entry | constructor].
    + match goal with |- context [forOf body l ?w1] => destruct (IH w1) as (evs & Ht & He) end.
      simpl in Ht. exists (preEv o ++ evs).
      rewrite Ht, <- !app_assoc. split; [reflexivity|].
      apply Forall_app; split; assumption.
Qed.

Hypothesis preFx_saved : forall o c, saved (preFx o c) = saved c.

Lemma loop_saved (l : list GameObject) :
  (forall o h, In o l -> hookOf k o = Some h -> balanced h) ->
  forall w, saved (ctx (resWorld (forOf body l w))) = saved (ctx w).
Proof.
  induction l as [|o l IH]; intros Hb w; simpl; [reflexivity|].
  unfold bind. rewrite body_eq. cbv zeta.
  assert (Hl : forall o' h, In o' l -> hookOf k o' = Some h -> balanced h)
    by (intros o' h Hin; apply Hb; right; exact Hin).
  destruct (hookOf k o) as [h|] eqn:Hh; unfold invoke; simpl.
  - pose proof (Hb o h (or_introl eq_refl) Hh (preFx o (ctx w))) as Hs.
    destruct (h (preFx o (ctx w))) as [c|e c]; simpl in *.
    + rewrite (IH Hl). simpl. rewrite Hs. apply preFx_saved.
    + rewrite Hs. apply preFx_saved.
  - rewrite (IH Hl). simpl. apply preFx_saved.
Qed.

End Loop.

(** The three loop bodies, in the shape the loop lemmas take. *)
Lemma drawObject_eq (o : GameObject) (w : World) :
  drawObject o w =
  let w1 := mkWorld (setFilter (filterFor o) (ctx w)) (heap w)
                    (trace w ++ [CallFilter (filterFor o)]) in
  match hookOf OnDraw o with
  | Some h => invoke (Invoke OnDraw o) h w1
  | None => Normal tt w1
  end.
Proof.
  unfold drawObject, filterFor, bind, ctx_setFilter, call. simpl.
  destruct (layer o =? -1)%Z; destruct (go_draw o); reflexivity.
Qed.

Lemma startObject_eq (o : GameObject) (w : World) :
  startObject o w =
  let w1 := mkWorld (ctx w) (heap w) (trace w ++ []) in
  match hookOf OnStart o with
  | Some h => invoke (Invoke OnStart o) h w1
  | None => Normal tt w1
  end.
Proof.
  unfold startObject. simpl. rewrite app_nil_r.
  destruct w; destruct (go_start o); reflexivity.
Qed.

Lemma updateObject_eq (o : GameObject) (w : World) :
  updateObject o w =
  let w1 := mkWorld (ctx w) (heap w) (trace w ++ []) in
  match hookOf OnUpdate o with
  | Some h => invoke (Invoke OnUpdate o) h w1
  | None => Normal tt w1
  end.
Proof.
  unfold updateObject. simpl. rewrite app_nil_r.
  destruct w; destruct (go_update o); reflexivity.
Qed.

Lemma filter_calls (o : GameObject) :
  Forall (fun e => isSceneCall e = true) [CallFilter (filterFor o)].
Proof. repeat constructor. Qed.

Lemma no_calls (o : GameObject) :
  Forall (fun e => isSceneCall e = true) (@nil Event).
Proof. constructor. Qed.

(* ================================================================== *)
(** ** [Scene.draw], unfolded around its loop *)
(* ================================================================== *)

Lemma nth_copy (A : Type) (h : list A) (v d : A) :
  nth (List.length h) (h ++ [v]) d = v.
Proof. rewrite app_nth2, Nat.sub_diag by lia. reflexivity. Qed.

Lemma writeAt_copy (A : Type) (h : list A) (u v : A) :
  writeAt (List.length h) v (h ++ [u]) = h ++ [v].
Proof. induction h as [|a h IH]; simpl; [|rewrite IH]; reflexivity. Qed.

Lemma restore_width (c : Context) : canvasWidth (restore c) = canvasWidth c.
Proof. unfold restore. destruct (saved c); reflexivity. Qed.

Lemma restore_height (c : Context) : canvasHeight (restore c) = canvasHeight c.
Proof. unfold restore. destruct (saved c); reflexivity. Qed.

Lemma Scene_draw_unfold (cam : Camera.Transform) (this : Scene.t) (w : World) :
  Scene.draw cam this w =
  let l := drawOrder (Scene.gameObjects this) w in
  let pro := prologue cam this (ctx w) in
  match forOf drawObject l
          (mkWorld (performAll pro (ctx w)) (heap w ++ [l]) (trace w ++ pro)) with
  | Normal _ w2 =>
      let epi := epilogue this (ctx w) (ctx w2) in
      Normal tt (mkWorld (performAll epi (ctx w2)) (heap w2) (trace w2 ++ epi))
  | Raise e w2 => Raise e w2
  end.
Proof.
  unfold Scene.draw, prologue, epilogue, letterboxCalls, barCalls, cameraCalls,
    usingLogicalCoordinates, barsAtSides, windowAspectRatio, drawOrder.
  unfold bind, ctx_setFillStyle, ctx_fillRect, ctx_save, ctx_restore,
    ctx_translate, ctx_scale, canvas_width, canvas_height, spread, sort,
    readArray, call, ret.
  cbn [ctx heap trace canvasWidth canvasHeight save setFillStyle withCurrent].
  destruct (0 <? Scene.logicalWidth this)%float;
    destruct (0 <? Scene.aspectRatio this)%float;
    destruct (canvasHeight (ctx w) / canvasWidth (ctx w) <? Scene.aspectRatio this)%float;
    cbn [andb ctx heap trace fst snd toNumber app performAll fold_left perform
         canvasWidth canvasHeight save setFillStyle translate scale applyOp withCurrent];
    repeat (rewrite nth_copy || rewrite writeAt_copy); rewrite <- ?app_assoc; cbn [app];
    match goal with |- context [forOf drawObject ?l ?w1] =>
      destruct (forOf drawObject l w1) as [u w2|e w2] end;
    cbn [ctx heap trace canvasWidth canvasHeight setFillStyle withCurrent];
    rewrite ?restore_width, ?restore_height, <- ?app_assoc;
    reflexivity.
Qed.

Lemma concat_singletons (A B : Type) (f : A -> B) (l : list A) :
  concat (map (fun a => [f a]) l) = map f l.
Proof. induction l as [|a l IH]; simpl; [|rewrite IH]; reflexivity. Qed.

Lemma perform_width (ev : Event) (c : Context) :
  canvasWidth (perform ev c) = canvasWidth c.
Proof. destruct ev; simpl; try reflexivity. apply restore_width. Qed.

Lemma perform_height (ev : Event) (c : Context) :
  canvasHeight (perform ev c) = canvasHeight c.
Proof. destruct ev; simpl; try reflexivity. apply restore_height. Qed.

Lemma performAll_width (evs : list Event) :
  forall c, canvasWidth (performAll evs c) = canvasWidth c.
Proof.
  induction evs as [|ev evs IH]; intros c; simpl; [reflexivity|].
  unfold performAll in IH. rewrite IH. apply perform_width.
Qed.

Lemma performAll_height (evs : list Event) :
  forall c, canvasHeight (performAll evs c) = canvasHeight c.
Proof.
  induction evs as [|ev evs IH]; intros c; simpl; [reflexivity|].
  unfold performAll in IH. rewrite IH. apply perform_height.
Qed.

Lemma epilogue_dims (this : Scene.t) (c c1 c2 : Context) :
  canvasWidth c1 = canvasWidth c2 -> canvasHeight c1 = canvasHeight c2 ->
  epilogue this c c1 = epilogue this c c2.
Proof. unfold epilogue, barCalls. intros -> ->. reflexivity. Qed.

Lemma prologue_calls (cam : Camera.Transform) (this : Scene.t) (c : Context) :
  Forall (fun e => isSceneCall e = true) (prologue cam this c).
Proof.
  unfold prologue, letterboxCalls, cameraCalls.
  destruct (usingLogicalCoordinates this); [destruct (barsAtSides this c)|];
    repeat constructor.
Qed.

Lemma epilogue_calls (this : Scene.t) (c c' : Context) :
  Forall (fun e => isSceneCall e = true) (epilogue this c c').
Proof.
  unfold epilogue, barCalls.
  destruct (usingLogicalCoordinates this); [destruct (barsAtSides this c)|];
    repeat constructor.
Qed.

(** A normal return of [Scene.draw]: the prologue, the loop over the
    sorted copy with every method returning, the epilogue. *)
Lemma Scene_draw_normal (cam : Camera.Transform) (this : Scene.t) (w w' : World) (u : unit) :
  Scene.draw cam this w = Normal u w' ->
  let l := drawOrder (Scene.gameObjects this) w in
  let pro := prologue cam this (ctx w) in
  exists evs w2,
    forOf drawObject l
      (mkWorld (performAll pro (ctx w)) (heap w ++ [l]) (trace w ++ pro)) = Normal tt w2 /\
    ctx w' = performAll (epilogue this (ctx w) (ctx w')) (ctx w2) /\
    heap w' = heap w ++ [l] /\
    trace w' = trace w ++ pro ++ evs ++ epilogue this (ctx w) (ctx w') /\
    sceneCalls evs = map filterCall l /\
    invocations evs = map (pair OnDraw) (List.filter (has OnDraw) l) /\
    Forall returned evs.
Proof.
  rewrite Scene_draw_unfold. cbv zeta.
  destruct (forOf drawObject _ _) as [[] w2|e w2] eqn:Hloop; [|discriminate].
  intros H.
  assert (Hw : w' = mkWorld (performAll (epilogue this (ctx w) (ctx w2)) (ctx w2))
                            (heap w2) (trace w2 ++ epilogue this (ctx w) (ctx w2)))
    by congruence.
  clear H.
  assert (Hepi : epilogue this (ctx w) (ctx w') = epilogue this (ctx w) (ctx w2)).
  { rewrite Hw. apply epilogue_dims; [apply performAll_width | apply performAll_height]. }
  rewrite Hepi, Hw. cbn [ctx heap trace].
  pose proof (loop_heap OnDraw drawEv drawFx drawObject drawObject_eq
                (drawOrder (Scene.gameObjects this) w)
                (mkWorld (performAll (prologue cam this (ctx w)) (ctx w))
                         (heap w ++ [drawOrder (Scene.gameObjects this) w])
                         (trace w ++ prologue cam this (ctx w)))) as Hheap.
  rewrite Hloop in Hheap. simpl in Hheap.
  destruct (loop_normal OnDraw drawEv drawFx drawObject drawObject_eq filter_calls _ _ Hloop)
    as (evs & Ht & Hc & Hi & Hret).
  simpl in Ht. rewrite concat_singletons in Hc.
  exists evs, w2. rewrite Ht, <- !app_assoc. auto 10.
Qed.

(** A throw out of [Scene.draw]: the prologue, and the loop up to the
    method that threw. *)
Lemma Scene_draw_raise (cam : Camera.Transform) (this : Scene.t) (w w' : World) (e : Exn) :
  Scene.draw cam this w = Raise e w' ->
  let l := drawOrder (Scene.gameObjects this) w in
  let pro := prologue cam this (ctx w) in
  exists evs before o after h c,
    trace w' = trace w ++ pro ++ evs ++ [Invoke OnDraw o c] /\
    heap w' = heap w ++ [l] /\
    l = before ++ o :: after /\
    go_draw o = Some h /\
    h c = Throws e (ctx w') /\
    sceneCalls evs = map filterCall (before ++ [o]) /\
    invocations evs = map (pair OnDraw) (List.filter (has OnDraw) before) /\
    Forall returned evs.
Proof.
  rewrite Scene_draw_unfold. cbv zeta.
  destruct (forOf drawObject _ _) as [[] w2|e2 w2] eqn:Hloop; [discriminate|].
  intros H. assert (e2 = e /\ w2 = w') as [-> ->] by (split; congruence). clear H.
  pose proof (loop_heap OnDraw drawEv drawFx drawObject drawObject_eq (drawOrder (Scene.gameObjects this) w)
                (mkWorld (performAll (prologue cam this (ctx w)) (ctx w))
                         (heap w ++ [drawOrder (Scene.gameObjects this) w])
                         (trace w ++ prologue cam this (ctx w)))) as Hheap.
  rewrite Hloop in Hheap. simpl in Hheap.
  destruct (loop_raise OnDraw drawEv drawFx drawObject drawObject_eq filter_calls _ _ Hloop)
    as (evs & before & o & after & h & c & Ht & Hl & Hh & Hthrow & Hc & Hi & Hret).
  simpl in Ht, Hh. rewrite concat_singletons in Hc.
  exists evs, before, o, after, h, c. rewrite Ht, <- !app_assoc. auto 10.
Qed.

Lemma firstn_middle (A : Type) (before after : list A) (o : A) :
  firstn (S (List.length before)) (before ++ o :: after) = before ++ [o].
Proof.
  induction before as [|a before IH]; [reflexivity|].
  cbn [List.length app]. rewrite firstn_cons, IH. reflexivity.
Qed.

(** The calls [Scene.draw] makes on the context, whether it returns or a
    [draw] method throws after [n] game objects. *)
Lemma Scene_draw_calls (cam : Camera.Transform) (this : Scene.t) (w : World) :
  let r := Scene.draw cam this w in
  let l := drawOrder (Scene.gameObjects this) w in
  exists n,
    (isNormal r = true -> n = List.length l) /\
    sceneCalls (emitted w r) =
      prologue cam this (ctx w) ++ map filterCall (firstn n l) ++
      (if isNormal r then epilogue this (ctx w) (ctx (resWorld r)) else []) /\
    invocations (emitted w r) =
      map (pair OnDraw) (List.filter (has OnDraw) (firstn n l)).
Proof.
  cbv zeta. destruct (Scene.draw cam this w) as [u w'|e w'] eqn:Hr.
  - destruct (Scene_draw_normal _ _ _ Hr) as (evs & w2 & _ & _ & _ & Ht & Hc & Hi & _).
    exists (List.length (drawOrder (Scene.gameObjects this) w)).
    rewrite firstn_all.
    rewrite (emitted_app w (Normal u w') _ Ht).
    rewrite !sceneCalls_app, !invocations_app, Hc, Hi.
    rewrite (sceneCalls_id (prologue_calls _ _ _)), (sceneCalls_id (epilogue_calls _ _ _)).
    rewrite (invocations_calls (prologue_calls _ _ _)), (invocations_calls (epilogue_calls _ _ _)).
    simpl. rewrite app_nil_r. auto.
  - destruct (Scene_draw_raise _ _ _ Hr)
      as (evs & before & o & after & h & c & Ht & _ & Hl & Hh & _ & Hc & Hi & _).
    exists (S (List.length before)).
    rewrite Hl, firstn_middle.
    rewrite (emitted_app w (Raise e w') _ Ht).
    rewrite !sceneCalls_app, !invocations_app, Hc, Hi.
    rewrite (sceneCalls_id (prologue_calls _ _ _)).
    rewrite (invocations_calls (prologue_calls _ _ _)).
    rewrite filter_app, map_app. simpl.
    rewrite (has_some OnDraw o Hh), map_app. simpl. rewrite !app_nil_r.
    split; [discriminate|]. split; reflexivity.
Qed.

(** Comparisons of floats: [a <= b] excludes [a > b]. *)
Lemma SFleb_SFltb (a b : spec_float) : SFleb a b = true -> SFltb b a = false.
Proof.
  unfold SFleb, SFltb.
  destruct a as [sa|sa| |sa ma ea], b as [sb|sb| |sb mb eb]; simpl;
    try discriminate; try reflexivity;
    try (destruct sa; try destruct sb; simpl; try discriminate; reflexivity);
    try (destruct sb; simpl; try discriminate; reflexivity).
  destruct sa, sb; simpl; try discriminate; try reflexivity;
    rewrite (Z.compare_antisym ea eb);
    destruct (ea ?= eb)%Z; simpl; try discriminate; try reflexivity;
    rewrite !Pos.compare_cont_spec; simpl;
    rewrite (Pos.compare_antisym ma mb);
    destruct (ma ?= mb)%positive; simpl; try discriminate; reflexivity.
Qed.

Lemma leb_ltb (a b : float) : (a <=? b)%float = true -> (b <? a)%float = false.
Proof. rewrite leb_spec, ltb_spec. apply SFleb_SFltb. Qed.

Lemma not_usingLogicalCoordinates (this : Scene.t) :
  (Scene.logicalWidth this <=? 0)%float = true \/
  (Scene.aspectRatio this <=? 0)%float = true ->
  usingLogicalCoordinates this = false.
Proof.
  unfold usingLogicalCoordinates. intros [H|H]; apply leb_ltb in H; rewrite H.
  - reflexivity.
  - apply andb_false_r.
Qed.

Lemma Scene_draw_finish (cam : Camera.Transform) (this : Scene.t) (w : World) :
  let l := drawOrder (Scene.gameObjects this) w in
  let pro := prologue cam this (ctx w) in
  Scene.draw cam this w =
  finishDraw this (ctx w)
    (forOf drawObject l
       (mkWorld (performAll pro (ctx w)) (heap w ++ [l]) (trace w ++ pro))).
Proof. cbv zeta. rewrite Scene_draw_unfold. reflexivity. Qed.

(* ================================================================== *)
(** ** The viewport *)
(* ================================================================== *)

(** C1. When logical coordinates are in use and the aspect ratio exceeds
    that of the window, [draw] translates by
    [(canvasWidth/2 - (canvasHeight/aspectRatio)/2, 0)], scales both axes
    by [canvasHeight/logicalWidth], and on a normal return paints the bars
    up to [letterBox1End] and from [letterBox2Start].  On an 800 x 400
    canvas with [logicalWidth = 20] and [aspectRatio = 1] this branch is
    taken: the translation is by 200, the scale factor is 20, and the
    second bar starts at 600. *)
Theorem draw_bars_at_sides :
  (forall (cam : Camera.Transform) (this : Scene.t) (w : World),
     let cw := canvasWidth (ctx w) in
     let ch := canvasHeight (ctx w) in
     let lw := Scene.logicalWidth this in
     let ar := Scene.aspectRatio this in
     (0 <? lw)%float = true -> (0 <? ar)%float = true ->
     (ch / cw <? ar)%float = true ->
     let letterBox1End := (cw / 2 - (ch / ar) / 2)%float in
     let letterBox2Start := (cw / 2 + (ch / ar) / 2)%float in
     let scaleFactor := (ch / lw)%float in
     let r := Scene.draw cam this w in
     exists n,
       sceneCalls (emitted w r) =
       [CallFillStyle (Scene.backgroundColor this); CallFillRect 0 0 cw ch; CallSave;
        CallTranslate letterBox1End 0; CallScale scaleFactor scaleFactor;
        CallScale (Camera.scaleX cam) (Camera.scaleY cam);
        CallTranslate (- Camera.x cam)%float (- Camera.y cam)%float]
       ++ map filterCall (firstn n (drawOrder (Scene.gameObjects this) w))
       ++ (if isNormal r then
             [CallRestore; CallFillStyle "black";
              CallFillRect 0 0 letterBox1End (canvasHeight (ctx (resWorld r)));
              CallFillRect letterBox2Start 0 (canvasWidth (ctx (resWorld r)))
                           (canvasHeight (ctx (resWorld r)))]
           else []))
  /\
  (forall (cam : Camera.Transform) (this : Scene.t) (w : World),
     canvasWidth (ctx w) = 800%float -> canvasHeight (ctx w) = 400%float ->
     Scene.logicalWidth this = 20%float -> Scene.aspectRatio this = 1%float ->
     let r := Scene.draw cam this w in
     exists n,
       sceneCalls (emitted w r) =
       [CallFillStyle (Scene.backgroundColor this); CallFillRect 0 0 800 400; CallSave;
        CallTranslate 200 0; CallScale 20 20;
        CallScale (Camera.scaleX cam) (Camera.scaleY cam);
        CallTranslate (- Camera.x cam)%float (- Camera.y cam)%float]
       ++ map filterCall (firstn n (drawOrder (Scene.gameObjects this) w))
       ++ (if isNormal r then
             [CallRestore; CallFillStyle "black";
              CallFillRect 0 0 200 (canvasHeight (ctx (resWorld r)));
              CallFillRect 600 0 (canvasWidth (ctx (resWorld r)))
                           (canvasHeight (ctx (resWorld r)))]
           else [])).
Proof.
  assert (General : forall (cam : Camera.Transform) (this : Scene.t) (w : World),
     let cw := canvasWidth (ctx w) in
     let ch := canvasHeight (ctx w) in
     let lw := Scene.logicalWidth this in
     let ar := Scene.aspectRatio this in
     (0 <? lw)%float = true -> (0 <? ar)%float = true ->
     (ch / cw <? ar)%float = true ->
     let r := Scene.draw cam this w in
     exists n,
       sceneCalls (emitted w r) =
       [CallFillStyle (Scene.backgroundColor this); CallFillRect 0 0 cw ch; CallSave;
        CallTranslate (cw / 2 - (ch / ar) / 2)%float 0;
        CallScale (ch / lw)%float (ch / lw)%float;
        CallScale (Camera.scaleX cam) (Camera.scaleY cam);
        CallTranslate (- Camera.x cam)%float (- Camera.y cam)%float]
       ++ map filterCall (firstn n (drawOrder (Scene.gameObjects this) w))
       ++ (if isNormal r then
             [CallRestore; CallFillStyle "black";
              CallFillRect 0 0 (cw / 2 - (ch / ar) / 2)%float
                           (canvasHeight (ctx (resWorld r)));
              CallFillRect (cw / 2 + (ch / ar) / 2)%float 0
                           (canvasWidth (ctx (resWorld r)))
                           (canvasHeight (ctx (resWorld r)))]
           else [])).
  { intros cam this w cw ch lw ar Hlw Har Hside r.
    destruct (Scene_draw_calls cam this w) as (n & _ & Hcalls & _).
    exists n. fold r in Hcalls. rewrite Hcalls.
    unfold prologue, epilogue, letterboxCalls, barCalls, cameraCalls,
      usingLogicalCoordinates, barsAtSides, windowAspectRatio.
    fold cw ch lw ar. rewrite Hlw, Har, Hside. reflexivity. }
  split.
  - exact General.
  - intros cam this w Hcw Hch Hlw Har.
    pose proof (General cam this w) as H. cbv zeta in H.
    rewrite Hcw, Hch, Hlw, Har in H.
    exact (H eq_refl eq_refl eq_refl).
Qed.

Lemma draw_bars_at_sides_witness :
  exists n,
    sceneCalls (emitted (blankWorld 800 400 [sprite 0])
                  (Scene.draw restingCamera (sceneWith 20 1) (blankWorld 800 400 [sprite 0]))) =
    [CallFillStyle "navy"; CallFillRect 0 0 800 400; CallSave;
     CallTranslate 200 0; CallScale 20 20; CallScale 1 1;
     CallTranslate (-0)%float (-0)%float]
    ++ map filterCall (firstn n [sprite 0])
    ++ [CallRestore; CallFillStyle "black";
        CallFillRect 0 0 200 400; CallFillRect 600 0 800 400].
Proof.
  destruct (proj1 draw_bars_at_sides restingCamera (sceneWith 20 1)
              (blankWorld 800 400 [sprite 0]) eq_refl eq_refl eq_refl) as [n H].
  exists n. vm_compute in H. vm_compute. exact H.
Defined.

(** C2. When logical coordinates are in use and the aspect ratio does not
    exceed that of the window, [draw] translates by
    [(0, canvasHeight/2 - (canvasWidth*aspectRatio)/2)], scales both axes
    by [canvasWidth/(logicalWidth/aspectRatio)], and on a normal return
    paints the bars above [letterBox1End] and below
    [letterBox2Start = (canvasWidth*aspectRatio)/2 + canvasHeight/2]. *)
Theorem draw_bars_above_and_below (cam : Camera.Transform) (this : Scene.t) (w : World) :
  let cw := canvasWidth (ctx w) in
  let ch := canvasHeight (ctx w) in
  let lw := Scene.logicalWidth this in
  let ar := Scene.aspectRatio this in
  (0 <? lw)%float = true -> (0 <? ar)%float = true ->
  (ar <=? ch / cw)%float = true ->
  let letterBox1End := (ch / 2 - (cw * ar) / 2)%float in
  let letterBox2Start := ((cw * ar) / 2 + ch / 2)%float in
  let scaleFactor := (cw / (lw / ar))%float in
  let r := Scene.draw cam this w in
  exists n,
    sceneCalls (emitted w r) =
    [CallFillStyle (Scene.backgroundColor this); CallFillRect 0 0 cw ch; CallSave;
     CallTranslate 0 letterBox1End; CallScale scaleFactor scaleFactor;
     CallScale (Camera.scaleX cam) (Camera.scaleY cam);
     CallTranslate (- Camera.x cam)%float (- Camera.y cam)%float]
    ++ map filterCall (firstn n (drawOrder (Scene.gameObjects this) w))
    ++ (if isNormal r then
          [CallRestore; CallFillStyle "black";
           CallFillRect 0 0 (canvasWidth (ctx (resWorld r))) letterBox1End;
           CallFillRect 0 letterBox2Start (canvasWidth (ctx (resWorld r)))
                        (canvasHeight (ctx (resWorld r)))]
        else []).
Proof.
  intros cw ch lw ar Hlw Har Hle letterBox1End letterBox2Start scaleFactor r.
  apply leb_ltb in Hle.
  destruct (Scene_draw_calls cam this w) as (n & _ & Hcalls & _).
  exists n. fold r in Hcalls. rewrite Hcalls.
  unfold prologue, epilogue, letterboxCalls, barCalls, cameraCalls,
    usingLogicalCoordinates, barsAtSides, windowAspectRatio.
  fold cw ch lw ar. rewrite Hlw, Har, Hle. reflexivity.
Qed.

Lemma draw_bars_above_and_below_witness :
  exists n,
    sceneCalls (emitted (blankWorld 400 800 [sprite 0])
                  (Scene.draw restingCamera (sceneWith 20 1) (blankWorld 400 800 [sprite 0]))) =
    [CallFillStyle "navy"; CallFillRect 0 0 400 800; CallSave;
     CallTranslate 0 200; CallScale 20 20; CallScale 1 1;
     CallTranslate (-0)%float (-0)%float]
    ++ map filterCall (firstn n [sprite 0])
    ++ [CallRestore; CallFillStyle "black";
        CallFillRect 0 0 400 200; CallFillRect 0 600 400 800].
Proof.
  destruct (draw_bars_above_and_below restingCamera (sceneWith 20 1)
              (blankWorld 400 800 [sprite 0]) eq_refl eq_refl eq_refl) as [n H].
  exists n. vm_compute in H. vm_compute. exact H.
Defined.

(** C3. With [logicalWidth <= 0] or [aspectRatio <= 0], the calls of
    [draw] on the context are the clearing of the canvas, [save], the
    camera's [scale] and [translate], one filter per game object,
    [restore] and the black fill style: no other translate or scale, and
    no bar; the game objects are drawn under the caller's transform
    followed by the camera's.  With logical coordinates in use, the
    letterbox translate and scale come first and the camera's scale and
    translate are applied after them, on the same transform. *)
Theorem draw_camera_transform (cam : Camera.Transform) (this : Scene.t) (w : World) :
  let r := Scene.draw cam this w in
  let cameraScale := Scale (Camera.scaleX cam) (Camera.scaleY cam) in
  let cameraTranslate := Translate (- Camera.x cam)%float (- Camera.y cam)%float in
  ((Scene.logicalWidth this <=? 0)%float = true \/
   (Scene.aspectRatio this <=? 0)%float = true ->
   (exists n,
      sceneCalls (emitted w r) =
      [CallFillStyle (Scene.backgroundColor this);
       CallFillRect 0 0 (canvasWidth (ctx w)) (canvasHeight (ctx w));
       CallSave;
       CallScale (Camera.scaleX cam) (Camera.scaleY cam);
       CallTranslate (- Camera.x cam)%float (- Camera.y cam)%float]
      ++ map filterCall (firstn n (drawOrder (Scene.gameObjects this) w))
      ++ (if isNormal r then [CallRestore; CallFillStyle "black"] else [])) /\
   drawsUnder cam this w
     (transform (current (ctx w)) ++ [cameraScale; cameraTranslate]))
  /\
  ((0 <? Scene.logicalWidth this)%float = true ->
   (0 <? Scene.aspectRatio this)%float = true ->
   exists tx ty sf,
     (exists rest,
        sceneCalls (emitted w r) =
        [CallFillStyle (Scene.backgroundColor this);
         CallFillRect 0 0 (canvasWidth (ctx w)) (canvasHeight (ctx w));
         CallSave;
         CallTranslate tx ty; CallScale sf sf;
         CallScale (Camera.scaleX cam) (Camera.scaleY cam);
         CallTranslate (- Camera.x cam)%float (- Camera.y cam)%float]
        ++ rest) /\
     drawsUnder cam this w
       (transform (current (ctx w)) ++
        [Translate tx ty; Scale sf sf; cameraScale; cameraTranslate])).
Proof.
  intros r cameraScale cameraTranslate.
  destruct (Scene_draw_calls cam this w) as (n & _ & Hcalls & _).
  fold r in Hcalls.
  pose proof (Scene_draw_finish cam this w) as Hfinish. cbv zeta in Hfinish.
  split.
  - intros Hoff. apply not_usingLogicalCoordinates in Hoff. split.
    + exists n. rewrite Hcalls.
      unfold prologue, epilogue, letterboxCalls, barCalls, cameraCalls.
      rewrite Hoff. reflexivity.
    + eexists. split; [|exact Hfinish].
      unfold prologue, letterboxCalls, cameraCalls. rewrite Hoff.
      simpl. rewrite <- !app_assoc. reflexivity.
  - intros Hlw Har.
    assert (Hon : usingLogicalCoordinates this = true)
      by (unfold usingLogicalCoordinates; rewrite Hlw, Har; reflexivity).
    destruct (barsAtSides this (ctx w)) eqn:Hside.
    + do 3 eexists. split.
      * eexists. rewrite Hcalls.
        unfold prologue, letterboxCalls, cameraCalls. rewrite Hon, Hside.
        cbn [app]. reflexivity.
      * eexists. split; [|exact Hfinish].
        unfold prologue, letterboxCalls, cameraCalls. rewrite Hon, Hside.
        simpl. rewrite <- !app_assoc. reflexivity.
    + do 3 eexists. split.
      * eexists. rewrite Hcalls.
        unfold prologue, letterboxCalls, cameraCalls. rewrite Hon, Hside.
        cbn [app]. reflexivity.
      * eexists. split; [|exact Hfinish].
        unfold prologue, letterboxCalls, cameraCalls. rewrite Hon, Hside.
        simpl. rewrite <- !app_assoc. reflexivity.
Qed.

Lemma draw_camera_transform_witness :
  (exists n,
     sceneCalls (emitted (blankWorld 800 400 [sprite 0])
                   (Scene.draw restingCamera (sceneWith (-1) (-1))
                      (blankWorld 800 400 [sprite 0]))) =
     [CallFillStyle "navy"; CallFillRect 0 0 800 400; CallSave;
      CallScale 1 1; CallTranslate (-0)%float (-0)%float]
     ++ map filterCall (firstn n [sprite 0])
     ++ [CallRestore; CallFillStyle "black"]) /\
  drawsUnder restingCamera (sceneWith 20 1) (blankWorld 800 400 [sprite 0])
    [Translate 200 0; Scale 20 20; Scale 1 1; Translate (-0)%float (-0)%float].
Proof.
  split.
  - destruct (proj1 (draw_camera_transform restingCamera (sceneWith (-1) (-1))
                       (blankWorld 800 400 [sprite 0])) (or_introl eq_refl))
      as [[n H] _].
    exists n. vm_compute in H. vm_compute. exact H.
  - destruct (proj2 (draw_camera_transform restingCamera (sceneWith 20 1)
                       (blankWorld 800 400 [sprite 0])) eq_refl eq_refl)
      as (tx & ty & sf & [rest Hcalls] & Hunder).
    vm_compute in Hcalls.
    assert (tx = 200%float /\ ty = 0%float /\ sf = 20%float) as (-> & -> & ->)
      by (repeat split; congruence).
    exact Hunder.
Defined.

(* ================================================================== *)
(** ** The fill style after a frame *)
(* ================================================================== *)

(** C10. Whenever [draw] returns, the fill style of the context is
    ["black"], with or without logical coordinates. *)
Theorem draw_leaves_fillStyle_black
    (cam : Camera.Transform) (this : Scene.t) (w w' : World) (u : unit) :
  Scene.draw cam this w = Normal u w' ->
  fillStyle (current (ctx w')) = "black"%string.
Proof.
  intros H.
  destruct (Scene_draw_normal _ _ _ H) as (evs & w2 & _ & Hctx & _).
  rewrite Hctx. unfold epilogue, barCalls.
  destruct (usingLogicalCoordinates this); [destruct (barsAtSides this (ctx w))|];
    reflexivity.
Qed.

Lemma draw_leaves_fillStyle_black_witness :
  fillStyle (current (ctx (resWorld
    (Scene.draw restingCamera (sceneWith (-1) (-1)) (blankWorld 800 400 [sprite 0])))))
  = "black"%string.
Proof.
  destruct (Scene.draw restingCamera (sceneWith (-1) (-1)) (blankWorld 800 400 [sprite 0]))
    as [u w'|e w'] eqn:H.
  - exact (draw_leaves_fillStyle_black _ _ _ H).
  - vm_compute in H. discriminate H.
Defined.

(* ================================================================== *)
(** ** Sorting by layer *)
(* ================================================================== *)

Section Sorting.

Variable A : Type.
Variable compareFn : A -> A -> Z.

Lemma insertSorted_perm (v : A) (l : list A) :
  Permutation (insertSorted compareFn v l) (v :: l).
Proof.
  induction l as [|u l IH]; simpl; [apply Permutation_refl|].
  destruct (0 <? compareFn v u)%Z.
  - apply perm_trans with (u :: v :: l); [apply perm_skip, IH | apply perm_swap].
  - apply Permutation_refl.
Qed.

Lemma sorted_perm (l : list A) : Permutation (sorted compareFn l) l.
Proof.
  induction l as [|v l IH]; simpl; [apply perm_nil|].
  apply perm_trans with (v :: sorted compareFn l);
    [apply insertSorted_perm | apply perm_skip, IH].
Qed.

Variable R : A -> A -> Prop.

Lemma StronglySorted_filter (f : A -> bool) (l : list A) :
  StronglySorted R l -> StronglySorted R (List.filter f l).
Proof.
  induction 1 as [|a l Hs IH Ha]; simpl; [constructor|].
  destruct (f a); [|exact IH].
  constructor; [exact IH|].
  rewrite Forall_forall in *. intros b Hb.
  apply filter_In in Hb. apply Ha, Hb.
Qed.

Lemma In_firstn (n : nat) : forall (l : list A) (a : A), In a (firstn n l) -> In a l.
Proof.
  induction n as [|n IH]; intros [|b l] a H; simpl in *; try contradiction.
  destruct H as [H|H]; [left; exact H | right; apply IH, H].
Qed.

Lemma StronglySorted_firstn (n : nat) (l : list A) :
  StronglySorted R l -> StronglySorted R (firstn n l).
Proof.
  intros H. revert n. induction H as [|a l Hs IH Ha]; intros [|n]; simpl;
    try constructor.
  - apply IH.
  - rewrite Forall_forall in *. intros b Hb. apply Ha, (In_firstn _ _ _ Hb).
Qed.

Lemma StronglySorted_pair (l before between after : list A) (a b : A) :
  StronglySorted R l -> l = before ++ a :: between ++ b :: after -> R a b.
Proof.
  intros H. revert before. induction H as [|c l Hs IH Hc]; intros before E.
  - destruct before; discriminate.
  - destruct before as [|d before]; simpl in E; injection E as <- ->.
    + rewrite Forall_forall in Hc. apply Hc, in_or_app. right. left. reflexivity.
    + apply (IH before). reflexivity.
Qed.

Lemma filter_perm (f : A -> bool) (l l' : list A) :
  Permutation l l' -> Permutation (List.filter f l) (List.filter f l').
Proof.
  induction 1 as [|a l l' _ IH|a b l|l l' l'' _ IH1 _ IH2]; simpl.
  - apply perm_nil.
  - destruct (f a); [apply perm_skip|]; exact IH.
  - destruct (f a), (f b); try apply Permutation_refl. apply perm_swap.
  - apply perm_trans with (List.filter f l'); assumption.
Qed.

End Sorting.

Lemma insertSorted_layers (v : GameObject) (l : list GameObject) :
  StronglySorted layerLe l -> StronglySorted layerLe (insertSorted byLayer v l).
Proof.
  induction 1 as [|u l Hs IH Hu]; simpl.
  - constructor; constructor.
  - unfold byLayer at 1. destruct (0 <? layer v - layer u)%Z eqn:E.
    + apply Z.ltb_lt in E. constructor; [exact IH|].
      rewrite Forall_forall in *. intros b Hb.
      apply (Permutation_in _ (insertSorted_perm byLayer v l)) in Hb.
      destruct Hb as [<-|Hb]; [unfold layerLe; lia | apply Hu, Hb].
    + apply Z.ltb_ge in E. constructor; [constructor; assumption|].
      constructor; [unfold layerLe; lia|].
      apply Forall_impl with (P := layerLe u); [|exact Hu].
      unfold layerLe. intros b Hb. lia.
Qed.

Lemma sorted_layers (l : list GameObject) : StronglySorted layerLe (sorted byLayer l).
Proof.
  induction l as [|v l IH]; simpl; [constructor | apply insertSorted_layers, IH].
Qed.

Lemma map_snd_pair (k : HookKind) (l : list GameObject) :
  map snd (map (pair k) l) = l.
Proof. induction l as [|a l IH]; simpl; [|rewrite IH]; reflexivity. Qed.

Lemma Scene_draw_heap (cam : Camera.Transform) (this : Scene.t) (w : World) :
  heap (resWorld (Scene.draw cam this w)) =
  heap w ++ [drawOrder (Scene.gameObjects this) w].
Proof.
  destruct (Scene.draw cam this w) as [u w'|e w'] eqn:H.
  - destruct (Scene_draw_normal _ _ _ H) as (evs & w2 & _ & _ & Hh & _). exact Hh.
  - destruct (Scene_draw_raise _ _ _ H) as (evs & b & o & a & h & c & _ & Hh & _).
    exact Hh.
Qed.

(* ================================================================== *)
(** ** The order of drawing *)
(* ================================================================== *)

(** C5. [draw] sorts a copy of the array of game objects, a new array
    that it leaves in the store, and goes through that copy: of two game
    objects whose [draw] was invoked, the one invoked first does not have
    the greater layer; on a normal return the objects drawn are those of
    the array that have a [draw]; and the array of the scene holds after
    [draw] what it held before, in the same order. *)
Theorem draw_in_layer_order (cam : Camera.Transform) (this : Scene.t) (w : World) :
  Scene.gameObjects this < List.length (heap w) ->
  let r := Scene.draw cam this w in
  let original := nth (Scene.gameObjects this) (heap w) [] in
  let drawn := map snd (invocations (emitted w r)) in
  (forall before a between b after,
     drawn = before ++ a :: between ++ b :: after -> (layer a <= layer b)%Z) /\
  (isNormal r = true -> Permutation drawn (List.filter (has OnDraw) original)) /\
  heap (resWorld r) = heap w ++ [sorted byLayer original] /\
  nth (Scene.gameObjects this) (heap (resWorld r)) [] = original.
Proof.
  intros Hvalid r original drawn.
  destruct (Scene_draw_calls cam this w) as (n & Hn & _ & Hinv).
  fold r in Hn, Hinv.
  assert (Hdrawn : drawn = List.filter (has OnDraw)
                             (firstn n (drawOrder (Scene.gameObjects this) w)))
    by (unfold drawn; rewrite Hinv; apply map_snd_pair).
  pose proof (Scene_draw_heap cam this w) as Hheap. fold r in Hheap.
  repeat split.
  - intros before a between b after E.
    apply StronglySorted_pair with (R := layerLe) (2 := E).
    rewrite Hdrawn.
    apply StronglySorted_filter, StronglySorted_firstn, sorted_layers.
  - intros Hnormal. rewrite Hdrawn, (Hn Hnormal), firstn_all.
    apply filter_perm, sorted_perm.
  - exact Hheap.
  - rewrite Hheap. apply app_nth1, Hvalid.
Qed.

Lemma draw_in_layer_order_witness :
  map layer
    (map snd (invocations
       (emitted (blankWorld 800 400 [sprite 5; sprite (-1); actor 3; sprite 3])
          (Scene.draw restingCamera (sceneWith 20 1)
             (blankWorld 800 400 [sprite 5; sprite (-1); actor 3; sprite 3])))))
  = [-1; 3; 3; 5]%Z /\
  nth 0 (heap (resWorld
           (Scene.draw restingCamera (sceneWith 20 1)
              (blankWorld 800 400 [sprite 5; sprite (-1); actor 3; sprite 3])))) []
  = [sprite 5; sprite (-1); actor 3; sprite 3].
Proof.
  pose proof (draw_in_layer_order restingCamera (sceneWith 20 1)
                (blankWorld 800 400 [sprite 5; sprite (-1); actor 3; sprite 3])
                (Nat.lt_0_succ 0)) as H.
  cbv zeta in H. destruct H as (_ & _ & _ & H).
  split; [vm_compute; reflexivity | exact H].
Defined.

(* ================================================================== *)
(** ** The filter *)
(* ================================================================== *)

Lemma setFilter_entry (o : GameObject) (c : Context) :
  entersWithOwnFilter o (setFilter (filterFor o) c).
Proof. reflexivity. Qed.

Lemma In_calls (k : HookKind) (o : GameObject) (c : Context) (evs : list Event) :
  Forall (fun e => isSceneCall e = true) evs -> ~ In (Invoke k o c) evs.
Proof.
  rewrite Forall_forall. intros H Hin. apply H in Hin. discriminate.
Qed.

(** C6. Every [draw] method is entered with the filter of its own game
    object: ["blur(2px)"] for layer -1 and ["none"] for every other layer,
    whatever the method invoked before it left in the context. *)
Theorem draw_filter_per_object
    (cam : Camera.Transform) (this : Scene.t) (w : World)
    (o : GameObject) (c : Context) :
  In (Invoke OnDraw o c) (emitted w (Scene.draw cam this w)) ->
  filter (current c) =
  if (layer o =? -1)%Z then "blur(2px)"%string else "none"%string.
Proof.
  rewrite Scene_draw_finish. cbv zeta.
  set (l := drawOrder (Scene.gameObjects this) w).
  set (pro := prologue cam this (ctx w)).
  set (w1 := mkWorld (performAll pro (ctx w)) (heap w ++ [l]) (trace w ++ pro)).
  destruct (loop_entry OnDraw drawEv drawFx drawObject drawObject_eq filter_calls
              entersWithOwnFilter setFilter_entry l w1) as (evs & Ht & Hentry).
  assert (Hem : exists tail,
             Forall (fun e => isSceneCall e = true) tail /\
             emitted w (finishDraw this (ctx w) (forOf drawObject l w1)) =
             pro ++ evs ++ tail).
  { destruct (forOf drawObject l w1) as [u w2|e w2];
      cbn [resWorld] in Ht; unfold w1 in Ht; cbn [trace] in Ht; cbn [finishDraw].
    - exists (epilogue this (ctx w) (ctx w2)). split; [apply epilogue_calls|].
      apply emitted_app. cbn [resWorld trace]. rewrite Ht, <- !app_assoc. reflexivity.
    - exists []. split; [constructor|].
      apply emitted_app. cbn [resWorld]. rewrite Ht, <- !app_assoc, app_nil_r.
      reflexivity. }
  destruct Hem as (tail & Htail & ->).
  intros Hin. apply in_app_or in Hin. destruct Hin as [Hin|Hin].
  - exfalso. exact (In_calls _ _ _ (prologue_calls cam this (ctx w)) Hin).
  - apply in_app_or in Hin. destruct Hin as [Hin|Hin].
    + rewrite Forall_forall in Hentry. exact (Hentry _ Hin).
    + exfalso. exact (In_calls _ _ _ Htail Hin).
Qed.

Lemma draw_filter_per_object_witness :
  filter (current (setFilter "blur(2px)"
                     (performAll (prologue restingCamera (sceneWith 20 1)
                                    (blankContext 800 400))
                                 (blankContext 800 400))))
  = "blur(2px)"%string.
Proof.
  refine (draw_filter_per_object restingCamera (sceneWith 20 1)
            (blankWorld 800 400 [sprite 5; sprite (-1)]) (sprite (-1)) _ _).
  vm_compute. do 8 right. left. reflexivity.
Defined.

(* ================================================================== *)
(** ** Starting a scene *)
(* ================================================================== *)

Lemma sceneStarts_app (a b : list Event) :
  sceneStarts (a ++ b) = sceneStarts a ++ sceneStarts b.
Proof.
  induction a as [|e a IH]; simpl; [reflexivity|].
  destruct e; simpl; rewrite ?IH; reflexivity.
Qed.

Lemma entryRule_sceneStarts (entry : GameObject -> Context -> Prop) (evs : list Event) :
  Forall (entryRule entry) evs -> sceneStarts evs = [].
Proof.
  induction 1 as [|e evs He _ IH]; simpl; [reflexivity|].
  destruct e; simpl in *; try exact IH. contradiction.
Qed.

Lemma always (o : GameObject) (c : Context) : True.
Proof. exact I. Qed.

(** A normal run of the loop of [_start]. *)
Lemma startLoop_normal (l : list GameObject) (w w' : World) (u : unit) :
  forOf startObject l w = Normal u w' ->
  exists evs,
    trace w' = trace w ++ evs /\
    sceneCalls evs = [] /\
    sceneStarts evs = [] /\
    invocations evs = map (pair OnStart) (List.filter (has OnStart) l) /\
    Forall returned evs.
Proof.
  intros H.
  destruct (loop_normal OnStart noEv noFx startObject startObject_eq no_calls _ _ H)
    as (evs & Ht & Hc & Hi & Hret).
  destruct (loop_entry OnStart noEv noFx startObject startObject_eq no_calls
              (fun _ _ => True) always l w) as (evs' & Ht' & Hentry).
  rewrite H in Ht'. simpl in Ht'. rewrite Ht in Ht'. apply app_inv_head in Ht'.
  subst evs'. exists evs. repeat split; try assumption.
  - rewrite Hc. clear. induction l; simpl; auto.
  - exact (entryRule_sceneStarts Hentry).
Qed.

Lemma Scene_start_unfold (this : Scene.t) (w : World) :
  Scene.hasStarted this = false ->
  Scene._start this w =
  (Scene.setStarted this,
   let l := nth (Scene.gameObjects this) (heap w) [] in
   match Scene.start this with
   | Some h =>
       match h (ctx w) with
       | Returns c =>
           forOf startObject l (mkWorld c (heap w) (trace w ++ [SceneStart (ctx w)]))
       | Throws e c => Raise e (mkWorld c (heap w) (trace w ++ [SceneStart (ctx w)]))
       end
   | None => forOf startObject l w
   end).
Proof.
  intros H. unfold Scene._start. rewrite H. simpl. f_equal.
  destruct (Scene.start this) as [h|]; unfold bind, invoke, readArray, ret; simpl.
  - destruct (h (ctx w)); reflexivity.
  - reflexivity.
Qed.

(** C4. On a scene that has not started, [_start] sets [hasStarted]; if
    it returns, it has invoked the scene's own [start] first, if there is
    one, and then the [start] of every game object that has one, each
    once and in the order of the array, and nothing else; every later
    call does nothing, so that two calls invoke each [start] once. *)
Theorem start_runs_once (this : Scene.t) (w : World) :
  Scene.hasStarted this = false ->
  let objects := nth (Scene.gameObjects this) (heap w) [] in
  let started := fst (Scene._start this w) in
  let first := snd (Scene._start this w) in
  Scene.hasStarted started = true /\
  (forall w', Scene._start started w' = (started, Normal tt w')) /\
  (forall u w1, first = Normal u w1 ->
     let second := snd (Scene._start started w1) in
     (exists evs,
        emitted w first =
          match Scene.start this with
          | Some _ => [SceneStart (ctx w)]
          | None => []
          end ++ evs /\
        sceneStarts evs = []) /\
     sceneCalls (emitted w first) = [] /\
     invocations (emitted w first) =
       map (pair OnStart) (List.filter (has OnStart) objects) /\
     invocations (emitted w first ++ emitted w1 second) =
       map (pair OnStart) (List.filter (has OnStart) objects)).
Proof.
  intros Hfresh objects started first.
  assert (Hagain : forall w', Scene._start started w' = (started, Normal tt w')).
  { intros w'. unfold started. rewrite (Scene_start_unfold this w Hfresh). reflexivity. }
  split; [unfold started; rewrite (Scene_start_unfold this w Hfresh); reflexivity|].
  split; [exact Hagain|].
  intros u w1 Hfirst second.
  assert (Hsecond : emitted w1 second = []).
  { unfold second. rewrite Hagain. unfold emitted. simpl. apply skipn_all. }
  rewrite Hsecond, app_nil_r.
  unfold first in *. rewrite (Scene_start_unfold this w Hfresh) in *.
  cbn [snd] in *. cbv zeta in Hfirst. fold objects in Hfirst |- *.
  destruct (Scene.start this) as [h|].
  - destruct (h (ctx w)) as [c|e c]; [|discriminate].
    destruct (startLoop_normal _ _ Hfirst) as (evs & Ht & Hc & Hs & Hi & _).
    simpl in Ht. rewrite Hfirst.
    rewrite (emitted_app w (Normal u w1) ([SceneStart (ctx w)] ++ evs))
      by (simpl; rewrite Ht, <- app_assoc; reflexivity).
    repeat split.
    + exists evs. split; [reflexivity | exact Hs].
    + simpl. exact Hc.
    + simpl. exact Hi.
    + simpl. exact Hi.
  - destruct (startLoop_normal _ _ Hfirst) as (evs & Ht & Hc & Hs & Hi & _).
    rewrite Hfirst. rewrite (emitted_app w (Normal u w1) evs Ht).
    repeat split; try assumption.
    exists evs. split; [reflexivity | exact Hs].
Qed.

Lemma start_runs_once_witness :
  let objects := [actor 1; sprite 2; actor 3] in
  let w := blankWorld 800 400 objects in
  let started := fst (Scene._start (sceneWith 20 1) w) in
  let first := snd (Scene._start (sceneWith 20 1) w) in
  let second := snd (Scene._start started (resWorld first)) in
  invocations (emitted w first ++ emitted (resWorld first) second) =
  [(OnStart, actor 1); (OnStart, actor 3)].
Proof.
  cbv zeta.
  destruct (snd (Scene._start (sceneWith 20 1) (blankWorld 800 400 [actor 1; sprite 2; actor 3])))
    as [u w1|e w1] eqn:Hfirst.
  - destruct (start_runs_once (sceneWith 20 1)
                (blankWorld 800 400 [actor 1; sprite 2; actor 3]) eq_refl)
      as (_ & _ & H).
    destruct (H u w1 Hfirst) as (_ & _ & _ & Hboth).
    rewrite Hfirst in Hboth. exact Hboth.
  - vm_compute in Hfirst. discriminate Hfirst.
Defined.

(* ================================================================== *)
(** ** Saving and restoring the drawing state *)
(* ================================================================== *)

Lemma setFilter_saved (o : GameObject) (c : Context) :
  saved (setFilter (filterFor o) c) = saved c.
Proof. reflexivity. Qed.

Lemma prologue_saved (cam : Camera.Transform) (this : Scene.t) (c : Context) :
  saved (performAll (prologue cam this c) c) =
  current (setFillStyle (Scene.backgroundColor this) c) :: saved c.
Proof.
  unfold prologue, letterboxCalls, cameraCalls.
  destruct (usingLogicalCoordinates this); [destruct (barsAtSides this c)|]; reflexivity.
Qed.

Lemma filterCalls_no_save (l : list GameObject) :
  List.filter isSave (map filterCall l) = [] /\
  List.filter isRestore (map filterCall l) = [].
Proof. induction l as [|o l [IH1 IH2]]; simpl; auto. Qed.

(** C7, as the code has it. When every [draw] method of the scene's game
    objects leaves the stack of saved states as it found it, a [draw] of
    the scene that returns leaves the transform, and the stack of saved
    states, as they were at the call, whatever the letterbox branch and
    the camera; the scene itself calls [save] once and [restore] once. *)
Theorem draw_restores_transform
    (cam : Camera.Transform) (this : Scene.t) (w w' : World) (u : unit) :
  (forall o h, In o (nth (Scene.gameObjects this) (heap w) []) ->
               go_draw o = Some h -> balanced h) ->
  Scene.draw cam this w = Normal u w' ->
  transform (current (ctx w')) = transform (current (ctx w)) /\
  saved (ctx w') = saved (ctx w) /\
  List.length (List.filter isSave (sceneCalls (emitted w (Scene.draw cam this w)))) = 1 /\
  List.length (List.filter isRestore (sceneCalls (emitted w (Scene.draw cam this w)))) = 1.
Proof.
  intros Hbalanced Hdraw.
  destruct (Scene_draw_calls cam this w) as (n & Hn & Hcalls & _).
  rewrite Hdraw in Hn, Hcalls. cbn [isNormal resWorld] in Hn, Hcalls.
  rewrite (Hn eq_refl), firstn_all in Hcalls.
  destruct (Scene_draw_normal _ _ _ Hdraw) as (evs & w2 & Hloop & Hctx & _).
  assert (Hsorted : forall o h, In o (drawOrder (Scene.gameObjects this) w) ->
                                hookOf OnDraw o = Some h -> balanced h).
  { intros o h Hin. apply Hbalanced.
    exact (Permutation_in _ (sorted_perm byLayer _) Hin). }
  pose proof (loop_saved OnDraw drawEv drawFx drawObject drawObject_eq setFilter_saved
                _ Hsorted
                (mkWorld (performAll (prologue cam this (ctx w)) (ctx w))
                         (heap w ++ [drawOrder (Scene.gameObjects this) w])
                         (trace w ++ prologue cam this (ctx w)))) as Hsaved.
  rewrite Hloop in Hsaved. cbn [resWorld ctx] in Hsaved.
  rewrite prologue_saved in Hsaved.
  assert (Hend : transform (current (ctx w')) = transform (current (ctx w)) /\
                 saved (ctx w') = saved (ctx w)).
  { rewrite Hctx. unfold epilogue, barCalls.
    destruct (usingLogicalCoordinates this); [destruct (barsAtSides this (ctx w))|];
      simpl; unfold restore; rewrite Hsaved; simpl; auto. }
  destruct Hend as [Ht Hs]. repeat split; try assumption.
  - rewrite Hdraw, Hcalls, !filter_app, (proj1 (filterCalls_no_save _)).
    unfold prologue, epilogue, letterboxCalls, barCalls, cameraCalls.
    destruct (usingLogicalCoordinates this); [destruct (barsAtSides this (ctx w))|]; reflexivity.
  - rewrite Hdraw, Hcalls, !filter_app, (proj2 (filterCalls_no_save _)).
    unfold prologue, epilogue, letterboxCalls, barCalls, cameraCalls.
    destruct (usingLogicalCoordinates this); [destruct (barsAtSides this (ctx w))|]; reflexivity.
Qed.

Lemma sprite_balanced (o : GameObject) (h : Hook) :
  In o [sprite 5; sprite (-1)] -> go_draw o = Some h -> balanced h.
Proof.
  intros [<-|[<-|[]]] E; injection E as <-; intros c; reflexivity.
Qed.

Lemma draw_restores_transform_witness :
  transform (current (ctx (resWorld
    (Scene.draw restingCamera (sceneWith 20 1)
       (blankWorld 800 400 [sprite 5; sprite (-1)]))))) = [].
Proof.
  destruct (Scene.draw restingCamera (sceneWith 20 1)
              (blankWorld 800 400 [sprite 5; sprite (-1)])) as [u w'|e w'] eqn:H.
  - exact (proj1 (draw_restores_transform restingCamera (sceneWith 20 1)
                    (blankWorld 800 400 [sprite 5; sprite (-1)])
                    sprite_balanced H)).
  - vm_compute in H. discriminate H.
Defined.

(** C7, as stated, fails: a [draw] method that calls [ctx.save()] without
    a [restore] makes the [restore] of the scene pop the state the method
    saved, and [draw] returns with the letterbox and camera transform
    still in place. *)
Lemma draw_keeps_leaked_transform :
  let w := blankWorld 800 400 [leakySprite] in
  exists w',
    Scene.draw restingCamera (sceneWith 20 1) w = Normal tt w' /\
    transform (current (ctx w)) = [] /\
    transform (current (ctx w')) =
      [Translate 200 0; Scale 20 20; Scale 1 1; Translate (-0)%float (-0)%float] /\
    transform (current (ctx w')) <> transform (current (ctx w)).
Proof.
  cbv zeta. eexists. split; [vm_compute; reflexivity|].
  split; [reflexivity|]. split; [reflexivity|]. discriminate.
Qed.

(* ================================================================== *)
(** ** Methods that throw *)
(* ================================================================== *)

Lemma propagates_intro (k : HookKind) (l : list GameObject) (w : World) (r : Result unit) :
  (forall u w', r = Normal u w' -> Forall returned (emitted w r)) ->
  (forall e w', r = Raise e w' -> abortedBy k l (emitted w r) e (ctx w')) ->
  propagates k l w r.
Proof.
  intros Hnormal Hraise o c h e c' Hin Hh Hthrow.
  destruct r as [u w'|e0 w'].
  - specialize (Hnormal u w' eq_refl). rewrite Forall_forall in Hnormal.
    destruct (Hnormal _ Hin) as (h0 & c0 & Hh0 & Hret).
    congruence.
  - pose proof (Hraise e0 w' eq_refl) as Hab.
    destruct Hab as (before & o1 & after & h1 & c1 & evs0 & Hl & Hh1 & Hthrow1 & Hev & Hi & Hret).
    rewrite Hev in Hin. apply in_app_or in Hin. destruct Hin as [Hin|Hin].
    + rewrite Forall_forall in Hret.
      destruct (Hret _ Hin) as (h0 & c0 & Hh0 & Hret0). congruence.
    + destruct Hin as [Hin|[]]. injection Hin as <- <-.
      assert (h1 = h) by congruence. subst h1.
      assert (e0 = e /\ ctx w' = c') as [-> <-] by (split; congruence).
      exists w'. repeat split.
      exact (Hraise e w' eq_refl).
Qed.

Lemma Scene_update_unfold (this : Scene.t) (w : World) :
  Scene.update this w = forOf updateObject (nth (Scene.gameObjects this) (heap w) []) w.
Proof. reflexivity. Qed.

Lemma update_propagates (this : Scene.t) (w : World) :
  propagates OnUpdate (nth (Scene.gameObjects this) (heap w) []) w (Scene.update this w).
Proof.
  rewrite Scene_update_unfold. apply propagates_intro.
  - intros u w' H.
    destruct (loop_normal OnUpdate noEv noFx updateObject updateObject_eq no_calls _ _ H)
      as (evs & Ht & _ & _ & Hret).
    rewrite H, (emitted_app w (Normal u w') evs Ht). exact Hret.
  - intros e w' H.
    destruct (loop_raise OnUpdate noEv noFx updateObject updateObject_eq no_calls _ _ H)
      as (evs & before & o & after & h & c & Ht & Hl & Hh & Hthrow & _ & Hi & Hret).
    rewrite H, (emitted_app w (Raise e w') _ Ht).
    exists before, o, after, h, c, evs. auto 10.
Qed.

Lemma draw_propagates (cam : Camera.Transform) (this : Scene.t) (w : World) :
  propagates OnDraw (drawOrder (Scene.gameObjects this) w) w (Scene.draw cam this w).
Proof.
  apply propagates_intro.
  - intros u w' H.
    destruct (Scene_draw_normal _ _ _ H) as (evs & w2 & _ & _ & _ & Ht & _ & _ & Hret).
    rewrite H, (emitted_app w (Normal u w') _ Ht).
    apply Forall_app; split; [apply returned_calls, prologue_calls|].
    apply Forall_app; split; [exact Hret | apply returned_calls, epilogue_calls].
  - intros e w' H.
    destruct (Scene_draw_raise _ _ _ H)
      as (evs & before & o & after & h & c & Ht & _ & Hl & Hh & Hthrow & _ & Hi & Hret).
    rewrite H, (emitted_app w (Raise e w') _ Ht).
    exists before, o, after, h, c, (prologue cam this (ctx w) ++ evs).
    rewrite invocations_app, (invocations_calls (prologue_calls _ _ _)), <- app_assoc.
    repeat split; try assumption.
    apply Forall_app; split; [apply returned_calls, prologue_calls | exact Hret].
Qed.

Lemma start_propagates (this : Scene.t) (w : World) :
  propagates OnStart (nth (Scene.gameObjects this) (heap w) []) w
    (snd (Scene._start this w)).
Proof.
  destruct (Scene.hasStarted this) eqn:Hstarted.
  - unfold Scene._start. rewrite Hstarted. simpl.
    intros o c h e c' Hin. unfold emitted in Hin. simpl in Hin.
    rewrite skipn_all in Hin. contradiction.
  - rewrite (Scene_start_unfold this w Hstarted). cbn [snd]. cbv zeta.
    set (l := nth (Scene.gameObjects this) (heap w) []).
    destruct (Scene.start this) as [hs|].
    + destruct (hs (ctx w)) as [cs|es cs].
      * apply propagates_intro.
        -- intros u w' H.
           destruct (loop_normal OnStart noEv noFx startObject startObject_eq no_calls _ _ H)
             as (evs & Ht & _ & _ & Hret).
           simpl in Ht. rewrite H.
           rewrite (emitted_app w (Normal u w') ([SceneStart (ctx w)] ++ evs))
             by (simpl; rewrite Ht, <- app_assoc; reflexivity).
           constructor; [exact I | exact Hret].
        -- intros e w' H.
           destruct (loop_raise OnStart noEv noFx startObject startObject_eq no_calls _ _ H)
             as (evs & before & o & after & h & c & Ht & Hl & Hh & Hthrow & _ & Hi & Hret).
           simpl in Ht. rewrite H.
           rewrite (emitted_app w (Raise e w') (([SceneStart (ctx w)] ++ evs) ++ [Invoke OnStart o c]))
             by (simpl; rewrite Ht, <- !app_assoc; reflexivity).
           exists before, o, after, h, c, ([SceneStart (ctx w)] ++ evs).
           repeat split; try assumption.
           constructor; [exact I | exact Hret].
      * intros o c h e c' Hin.
        rewrite (emitted_app w (Raise es (mkWorld cs (heap w) (trace w ++ [SceneStart (ctx w)])))
                   [SceneStart (ctx w)] eq_refl) in Hin.
        destruct Hin as [Hin|[]]. discriminate Hin.
    + apply propagates_intro.
      * intros u w' H.
        destruct (loop_normal OnStart noEv noFx startObject startObject_eq no_calls _ _ H)
          as (evs & Ht & _ & _ & Hret).
        rewrite H, (emitted_app w (Normal u w') evs Ht). exact Hret.
      * intros e w' H.
        destruct (loop_raise OnStart noEv noFx startObject startObject_eq no_calls _ _ H)
          as (evs & before & o & after & h & c & Ht & Hl & Hh & Hthrow & _ & Hi & Hret).
        rewrite H, (emitted_app w (Raise e w') _ Ht).
        exists before, o, after, h, c, evs. auto 10.
Qed.

(** C8. In [_start], [update] and [draw], a [start], [update] or [draw]
    method of a game object that throws ends the entry point with that
    throw: the entry point is left with the thrown value and with the
    context as the method left it, the invocation of the method is the
    last thing the scene did, and no method of a later game object, in
    the order of the loop, was invoked. *)
Theorem hook_throw_propagates (cam : Camera.Transform) (this : Scene.t) (w : World) :
  let objects := nth (Scene.gameObjects this) (heap w) [] in
  propagates OnStart objects w (snd (Scene._start this w)) /\
  propagates OnUpdate objects w (Scene.update this w) /\
  propagates OnDraw (sorted byLayer objects) w (Scene.draw cam this w).
Proof.
  cbv zeta. split; [apply start_propagates|].
  split; [apply update_propagates | apply draw_propagates].
Qed.

Lemma hook_throw_propagates_witness :
  let objects := [actor 1; faultyObject; actor 2] in
  let w := blankWorld 800 400 objects in
  exists w',
    Scene.update (sceneWith 20 1) w = Raise "update failed"%string w' /\
    ctx w' = ctx w /\
    abortedBy OnUpdate objects (emitted w (Scene.update (sceneWith 20 1) w))
      "update failed"%string (ctx w).
Proof.
  cbv zeta.
  destruct (hook_throw_propagates restingCamera (sceneWith 20 1)
              (blankWorld 800 400 [actor 1; faultyObject; actor 2])) as (_ & H & _).
  refine (H faultyObject (blankContext 800 400) (Throws "update failed"%string)
            "update failed"%string (blankContext 800 400) _ eq_refl eq_refl).
  vm_compute. right. left. reflexivity.
Defined.

(* ================================================================== *)
(** ** The older scene against the newer one *)
(* ================================================================== *)

Lemma HardcodedScene_draw_unfold (this : HardcodedScene.t) (w : World) :
  HardcodedScene.draw this w =
  let l := drawOrder (HardcodedScene.gameObjects this) w in
  let pro := hardcodedPrologue this (ctx w) in
  match forOf drawObject l
          (mkWorld (performAll pro (ctx w)) (heap w ++ [l]) (trace w ++ pro)) with
  | Normal _ w2 =>
      let epi := hardcodedEpilogue (ctx w) (ctx w2) in
      Normal tt (mkWorld (performAll epi (ctx w2)) (heap w2) (trace w2 ++ epi))
  | Raise e w2 => Raise e w2
  end.
Proof.
  unfold HardcodedScene.draw, hardcodedPrologue, hardcodedEpilogue, hardcodedBoxes,
    drawOrder.
  unfold bind, ctx_setFillStyle, ctx_fillRect, ctx_save, ctx_restore,
    ctx_translate, ctx_scale, canvas_width, canvas_height, spread, sort,
    readArray, call, ret.
  cbn [ctx heap trace canvasWidth canvasHeight save setFillStyle withCurrent].
  destruct (canvasHeight (ctx w) <? canvasWidth (ctx w))%float;
    cbn [ctx heap trace fst snd toNumber app performAll fold_left perform
         canvasWidth canvasHeight save setFillStyle translate scale applyOp withCurrent];
    repeat (rewrite nth_copy || rewrite writeAt_copy); rewrite <- ?app_assoc; cbn [app];
    match goal with |- context [forOf drawObject ?l ?w1] =>
      destruct (forOf drawObject l w1) as [u w2|e w2] end;
    cbn [ctx heap trace canvasWidth canvasHeight setFillStyle withCurrent];
    rewrite ?restore_width, ?restore_height; try reflexivity;
    destruct (canvasHeight (ctx w2) <? canvasWidth (ctx w2))%float;
    cbn [ctx heap trace canvasWidth canvasHeight setFillStyle withCurrent
         performAll fold_left perform app];
    rewrite ?restore_width, ?restore_height, <- ?app_assoc; reflexivity.
Qed.

Lemma hardcodedPrologue_calls (this : HardcodedScene.t) (c : Context) :
  Forall (fun e => isSceneCall e = true) (hardcodedPrologue this c).
Proof.
  unfold hardcodedPrologue.
  destruct (canvasHeight c <? canvasWidth c)%float; repeat constructor.
Qed.

Lemma hardcodedEpilogue_calls (c c' : Context) :
  Forall (fun e => isSceneCall e = true) (hardcodedEpilogue c c').
Proof.
  unfold hardcodedEpilogue.
  destruct (canvasHeight c' <? canvasWidth c')%float; repeat constructor.
Qed.

(** The calls [HardcodedScene.draw] makes on the context. *)
Lemma HardcodedScene_draw_calls (this : HardcodedScene.t) (w : World) :
  let r := HardcodedScene.draw this w in
  exists filters c',
    sceneCalls (emitted w r) =
      hardcodedPrologue this (ctx w) ++ filters ++
      (if isNormal r then hardcodedEpilogue (ctx w) c' else []).
Proof.
  cbv zeta. rewrite HardcodedScene_draw_unfold. cbv zeta.
  set (l := drawOrder (HardcodedScene.gameObjects this) w).
  set (pro := hardcodedPrologue this (ctx w)).
  destruct (forOf drawObject l _) as [u w2|e w2] eqn:Hloop.
  - destruct (loop_normal OnDraw drawEv drawFx drawObject drawObject_eq filter_calls _ _ Hloop)
      as (evs & Ht & _).
    cbn [trace] in Ht.
    exists (sceneCalls evs), (ctx w2).
    rewrite (emitted_app w _ (pro ++ evs ++ hardcodedEpilogue (ctx w) (ctx w2)))
      by (cbn [resWorld trace]; rewrite Ht, <- !app_assoc; reflexivity).
    rewrite !sceneCalls_app. unfold pro.
    rewrite (sceneCalls_id (hardcodedPrologue_calls _ _)),
      (sceneCalls_id (hardcodedEpilogue_calls _ _)).
    reflexivity.
  - destruct (loop_raise OnDraw drawEv drawFx drawObject drawObject_eq filter_calls _ _ Hloop)
      as (evs & before & o & after & h & c & Ht & _).
    cbn [trace] in Ht.
    exists (sceneCalls evs), (ctx w2).
    rewrite (emitted_app w _ (pro ++ evs ++ [Invoke OnDraw o c]))
      by (cbn [resWorld]; rewrite Ht, <- !app_assoc; reflexivity).
    rewrite !sceneCalls_app. unfold pro.
    rewrite (sceneCalls_id (hardcodedPrologue_calls _ _)).
    reflexivity.
Qed.

(** C9. The two [draw] do not lay the scene out alike, also when the
    newer one has [logicalWidth = 20] and [aspectRatio = 100].  On a
    400 x 800 canvas they take different branches: the newer one puts the
    bars at the sides (translate by (196, 0), scale by 40), the older one
    above and below (translate by (0, 200), scale by 20).  On a 1 x 200
    canvas both put the bars above and below, and disagree on where:
    translate by (0, 50) and scale by 5 against translate by (0, 99.5)
    and scale by 1/20, and, when they return, a second bar from 150
    against one from 100.5. *)
Theorem hardcoded_draw_differs
    (cam : Camera.Transform) (this : Scene.t) (old : HardcodedScene.t) (w : World) :
  Scene.logicalWidth this = 20%float ->
  Scene.aspectRatio this = 100%float ->
  let r := Scene.draw cam this w in
  let r' := HardcodedScene.draw old w in
  (canvasWidth (ctx w) = 400%float -> canvasHeight (ctx w) = 800%float ->
   (exists rest,
      sceneCalls (emitted w r) =
      [CallFillStyle (Scene.backgroundColor this); CallFillRect 0 0 400 800; CallSave;
       CallTranslate 196 0; CallScale 40 40] ++ rest) /\
   (exists rest,
      sceneCalls (emitted w r') =
      [CallFillStyle (HardcodedScene.backgroundColor old); CallFillRect 0 0 400 800;
       CallSave; CallTranslate 0 200; CallScale 20 20] ++ rest))
  /\
  (canvasWidth (ctx w) = 1%float -> canvasHeight (ctx w) = 200%float ->
   (exists filters cw' ch',
      sceneCalls (emitted w r) =
      [CallFillStyle (Scene.backgroundColor this); CallFillRect 0 0 1 200; CallSave;
       CallTranslate 0 50; CallScale 5 5;
       CallScale (Camera.scaleX cam) (Camera.scaleY cam);
       CallTranslate (- Camera.x cam)%float (- Camera.y cam)%float]
      ++ filters
      ++ (if isNormal r then
            [CallRestore; CallFillStyle "black";
             CallFillRect 0 0 cw' 50; CallFillRect 0 150 cw' ch']
          else [])) /\
   (exists filters cw' ch',
      sceneCalls (emitted w r') =
      [CallFillStyle (HardcodedScene.backgroundColor old); CallFillRect 0 0 1 200;
       CallSave; CallTranslate 0 99.5; CallScale (1 / 20)%float (1 / 20)%float]
      ++ filters
      ++ (if isNormal r' then
            [CallRestore; CallFillStyle "black"]
            ++ (if (ch' <? cw')%float then
                  [CallFillRect 0 0 99.5 ch'; CallFillRect 100.5 0 cw' ch']
                else
                  [CallFillRect 0 0 cw' 99.5; CallFillRect 0 100.5 cw' ch'])
          else []))).
Proof.
  intros Hlw Har r r'.
  destruct (Scene_draw_calls cam this w) as (n & _ & Hcalls & _). fold r in Hcalls.
  destruct (HardcodedScene_draw_calls old w) as (filters' & c' & Hcalls'). fold r' in Hcalls'.
  unfold prologue, epilogue, letterboxCalls, barCalls, cameraCalls,
    usingLogicalCoordinates, barsAtSides, windowAspectRatio in Hcalls.
  unfold hardcodedPrologue, hardcodedEpilogue, hardcodedBoxes in Hcalls'.
  rewrite Hlw, Har in Hcalls.
  split; intros Hcw Hch; rewrite Hcw, Hch in Hcalls, Hcalls'.
  - split.
    + eexists. rewrite Hcalls. reflexivity.
    + eexists. rewrite Hcalls'. reflexivity.
  - split.
    + exists (map filterCall (firstn n (drawOrder (Scene.gameObjects this) w))),
        (canvasWidth (ctx (resWorld r))), (canvasHeight (ctx (resWorld r))).
      rewrite Hcalls. reflexivity.
    + exists filters', (canvasWidth c'), (canvasHeight c').
      rewrite Hcalls'. reflexivity.
Qed.

Lemma hardcoded_draw_differs_witness :
  let w := blankWorld 400 800 [sprite 0] in
  (exists rest,
     sceneCalls (emitted w (Scene.draw restingCamera (sceneWith 20 100) w)) =
     [CallFillStyle "navy"; CallFillRect 0 0 400 800; CallSave;
      CallTranslate 196 0; CallScale 40 40] ++ rest) /\
  (exists rest,
     sceneCalls (emitted w (HardcodedScene.draw (HardcodedScene.mk "navy" 0 false None) w)) =
     [CallFillStyle "navy"; CallFillRect 0 0 400 800; CallSave;
      CallTranslate 0 200; CallScale 20 20] ++ rest).
Proof.
  exact (proj1 (hardcoded_draw_differs restingCamera (sceneWith 20 100)
                  (HardcodedScene.mk "navy" 0 false None)
                  (blankWorld 400 800 [sprite 0]) eq_refl eq_refl)
           eq_refl eq_refl).
Defined.

(* ================================================================== *)
(** ** The keyboard component: one update *)
(* ================================================================== *)

Section Store.

Variable A : Type.

Lemma writeAt_length (v : A) (l : list A) :
  forall i, List.length (writeAt i v l) = List.length l.
Proof.
  induction l as [|u l IH]; intros [|i]; simpl; try reflexivity.
  rewrite IH. reflexivity.
Qed.

Lemma nth_writeAt_same (v d : A) (l : list A) :
  forall i, i < List.length l -> nth i (writeAt i v l) d = v.
Proof.
  induction l as [|u l IH]; intros [|i] H; simpl in *; try lia; try reflexivity.
  apply IH. lia.
Qed.

Lemma nth_writeAt_other (v d : A) (l : list A) :
  forall i j, i <> j -> nth j (writeAt i v l) d = nth j l d.
Proof.
  induction l as [|u l IH]; intros [|i] [|j] H; simpl; try reflexivity;
    try congruence.
  apply IH. congruence.
Qed.

End Store.

Module KeyboardFacts.

Import KeyboardComponent.

Lemma setX_length (a : Loc) (v : float) (s : list Position) :
  List.length (setX a v s) = List.length s.
Proof. apply writeAt_length. Qed.

Lemma setY_length (a : Loc) (v : float) (s : list Position) :
  List.length (setY a v s) = List.length s.
Proof. apply writeAt_length. Qed.

Lemma position_setX_same (a : Loc) (v : float) (s : list Position) :
  a < List.length s ->
  position (setX a v s) a = mkPosition v (y (position s a)).
Proof. intros H. unfold position at 1, setX. apply nth_writeAt_same, H. Qed.

Lemma position_setY_same (a : Loc) (v : float) (s : list Position) :
  a < List.length s ->
  position (setY a v s) a = mkPosition (x (position s a)) v.
Proof. intros H. unfold position at 1, setY. apply nth_writeAt_same, H. Qed.

Lemma position_setX_other (a b : Loc) (v : float) (s : list Position) :
  a <> b -> position (setX a v s) b = position s b.
Proof. intros H. unfold position, setX. apply nth_writeAt_other, H. Qed.

Lemma position_setY_other (a b : Loc) (v : float) (s : list Position) :
  a <> b -> position (setY a v s) b = position s b.
Proof. intros H. unfold position, setY. apply nth_writeAt_other, H. Qed.

Lemma distinct_pairs (this : t) :
  distinctDirections this ->
  up this <> down this /\ up this <> left this /\ up this <> right this /\
  down this <> left this /\ down this <> right this /\ left this <> right this.
Proof.
  unfold distinctDirections. intros H.
  inversion H as [|? ? H1 H2]; subst.
  inversion H2 as [|? ? H3 H4]; subst.
  inversion H4 as [|? ? H5 H6]; subst.
  simpl in *. intuition congruence.
Qed.

(** The keys leave everything but [nextMove]. *)
Lemma readKeys_fields (keysDown : list string) (this : t) :
  readKeys keysDown this =
  setNextMove (nextMove (readKeys keysDown this)) this.
Proof.
  unfold readKeys.
  destruct (includes keysDown "ArrowLeft"), (includes keysDown "ArrowRight"),
    (includes keysDown "ArrowUp"), (includes keysDown "ArrowDown");
    destruct this; reflexivity.
Qed.

Lemma readKeys_nextMove (keysDown : list string) (this : t) :
  nextMove (readKeys keysDown this) =
  if includes keysDown "ArrowDown" then down this
  else if includes keysDown "ArrowUp" then up this
  else if includes keysDown "ArrowRight" then right this
  else if includes keysDown "ArrowLeft" then left this
  else nextMove this.
Proof.
  unfold readKeys.
  destruct (includes keysDown "ArrowLeft"), (includes keysDown "ArrowRight"),
    (includes keysDown "ArrowUp"), (includes keysDown "ArrowDown");
    reflexivity.
Qed.

(** [update], with the move the keys chose written [m]. *)
Lemma update_shape (keysDown : list string) (deltaTime : float)
    (this : t) (store : list Position) :
  let m := nextMove (readKeys keysDown this) in
  let due := (timeLeftToMove this - deltaTime <=? 0)%float in
  let moving := setTimeLeftToMove (timeBetweenMoves this) (setNextMove m this) in
  update keysDown deltaTime this store =
  if due then
    (moving,
     moveBody moving (x (position store (transform this)))
       (y (position store (transform this))) (moveHead moving store))
  else (setTimeLeftToMove (timeLeftToMove this - deltaTime)%float (setNextMove m this),
        store).
Proof.
  cbv zeta. unfold update. rewrite readKeys_fields.
  set (m := nextMove (readKeys keysDown this)).
  cbn [timeLeftToMove setNextMove setTimeLeftToMove timeBetweenMoves transform
       up down left right nextBodyPart nextMove speed].
  destruct (timeLeftToMove this - deltaTime <=? 0)%float; reflexivity.
Qed.

Lemma moveHead_length (this : t) (s : list Position) :
  List.length (moveHead this s) = List.length s.
Proof.
  unfold moveHead.
  destruct (String.eqb (nextMove this) (up this)),
    (String.eqb (nextMove this) (down this)),
    (String.eqb (nextMove this) (left this)),
    (String.eqb (nextMove this) (right this));
    rewrite ?setX_length, ?setY_length; reflexivity.
Qed.

Lemma moveHead_other (this : t) (s : list Position) (a : Loc) :
  a <> transform this -> position (moveHead this s) a = position s a.
Proof.
  intros H. unfold moveHead.
  destruct (String.eqb (nextMove this) (up this)),
    (String.eqb (nextMove this) (down this)),
    (String.eqb (nextMove this) (left this)),
    (String.eqb (nextMove this) (right this));
    rewrite ?position_setX_other, ?position_setY_other by congruence;
    reflexivity.
Qed.

Lemma moveHead_head (this : t) (s : list Position) :
  distinctDirections this ->
  transform this < List.length s ->
  let p := position s (transform this) in
  position (moveHead this s) (transform this) =
  if String.eqb (nextMove this) (up this) then mkPosition (x p) (y p - speed this)
  else if String.eqb (nextMove this) (down this) then mkPosition (x p) (y p + speed this)
  else if String.eqb (nextMove this) (left this) then mkPosition (x p - speed this) (y p)
  else if String.eqb (nextMove this) (right this) then mkPosition (x p + speed this) (y p)
  else p.
Proof.
  intros Hd Hv p. apply distinct_pairs in Hd.
  destruct Hd as (Hud & Hul & Hur & Hdl & Hdr & Hlr).
  unfold moveHead.
  destruct (String.eqb_spec (nextMove this) (up this)) as [Eu|Eu];
    destruct (String.eqb_spec (nextMove this) (down this)) as [Ed|Ed];
    destruct (String.eqb_spec (nextMove this) (left this)) as [El|El];
    destruct (String.eqb_spec (nextMove this) (right this)) as [Er|Er];
    try congruence;
    rewrite ?position_setX_same, ?position_setY_same by assumption;
    reflexivity.
Qed.

Lemma moveBody_length (this : t) (mx my : float) (s : list Position) :
  List.length (moveBody this mx my s) = List.length s.
Proof.
  unfold moveBody. destruct (nextBodyPart this); [|reflexivity].
  rewrite setY_length, setX_length. reflexivity.
Qed.

Lemma moveBody_other (this : t) (mx my : float) (s : list Position) (a : Loc) :
  nextBodyPart this <> Some a ->
  position (moveBody this mx my s) a = position s a.
Proof.
  intros H. unfold moveBody. destruct (nextBodyPart this) as [b|]; [|reflexivity].
  rewrite position_setY_other, position_setX_other by congruence. reflexivity.
Qed.

Lemma moveBody_part (this : t) (mx my : float) (s : list Position) (b : Loc) :
  nextBodyPart this = Some b -> b < List.length s ->
  position (moveBody this mx my s) b = mkPosition mx my.
Proof.
  intros Hb Hv. unfold moveBody. rewrite Hb.
  rewrite position_setY_same by (rewrite setX_length; exact Hv).
  rewrite position_setX_same by exact Hv. reflexivity.
Qed.

End KeyboardFacts.

(** Not-a-number, on the specification of the floats. *)
Lemma SFeqb_refl_false (s : spec_float) : SFeqb s s = false -> s = S754_nan.
Proof.
  unfold SFeqb. destruct s as [b|b| |b m e]; simpl; try reflexivity.
  - discriminate.
  - destruct b; discriminate.
  - destruct b; rewrite Z.compare_refl, Pos.compare_cont_refl; discriminate.
Qed.

Lemma is_nan_spec (a : float) : is_nan a = true -> Prim2SF a = S754_nan.
Proof.
  unfold is_nan. rewrite FloatAxioms.eqb_spec. intros H.
  apply SFeqb_refl_false. destruct (SFeqb _ _); [discriminate|reflexivity].
Qed.

Lemma spec_is_nan (a : float) : Prim2SF a = S754_nan -> is_nan a = true.
Proof. unfold is_nan. rewrite FloatAxioms.eqb_spec. intros ->. reflexivity. Qed.

Lemma sub_nan (a b : float) :
  is_nan a = true \/ is_nan b = true -> is_nan (a - b)%float = true.
Proof.
  intros H. apply spec_is_nan. rewrite FloatAxioms.sub_spec. unfold SF64sub, SFsub.
  destruct H as [H|H]; apply is_nan_spec in H; rewrite H.
  - reflexivity.
  - destruct (Prim2SF a); reflexivity.
Qed.

Lemma nan_not_leb (a b : float) : is_nan a = true -> (a <=? b)%float = false.
Proof. intros H. apply is_nan_spec in H. rewrite FloatAxioms.leb_spec, H. reflexivity. Qed.

Module KeyboardSpec.

Import KeyboardComponent KeyboardFacts.

(** X1. When several arrow keys are down the last test in the source
    wins: ArrowDown before ArrowUp before ArrowRight before ArrowLeft;
    with none of them down the move chosen earlier is kept.  This holds
    whether or not the component moves in this update. *)
Theorem update_key_priority (keysDown : list string) (deltaTime : float)
    (this : t) (store : list Position) :
  nextMove (fst (update keysDown deltaTime this store)) =
  if includes keysDown "ArrowDown" then down this
  else if includes keysDown "ArrowUp" then up this
  else if includes keysDown "ArrowRight" then right this
  else if includes keysDown "ArrowLeft" then left this
  else nextMove this.
Proof.
  rewrite update_shape. cbv zeta. rewrite <- readKeys_nextMove.
  destruct (timeLeftToMove this - deltaTime <=? 0)%float; reflexivity.
Qed.

(** X2. While the time left, less the time of the frame, is not [<= 0],
    [update] moves nothing: the store of transforms is as it was and the
    time left is the difference. *)
Theorem update_waits (keysDown : list string) (deltaTime : float)
    (this : t) (store : list Position) :
  (timeLeftToMove this - deltaTime <=? 0)%float = false ->
  snd (update keysDown deltaTime this store) = store /\
  timeLeftToMove (fst (update keysDown deltaTime this store)) =
    (timeLeftToMove this - deltaTime)%float.
Proof.
  intros H. rewrite update_shape. cbv zeta. rewrite H. split; reflexivity.
Qed.

Lemma update_waits_witness :
  snd (update ["ArrowLeft"%string] 0.25%float snakeHead snakeStore) = snakeStore /\
  timeLeftToMove (fst (update ["ArrowLeft"%string] 0.25%float snakeHead snakeStore)) = 0.75%float.
Proof.
  exact (@update_waits ["ArrowLeft"%string] 0.25%float snakeHead snakeStore eq_refl).
Defined.

(** X3. When the time left, less the time of the frame, is [<= 0], the
    time left is set to [timeBetweenMoves] (what the frame overshot is
    dropped) and, the four directions being different strings and the
    body part not being the head itself, the transform of the component
    moves by [speed] along the chosen direction: [y - speed] for up,
    [y + speed] for down, [x - speed] for left, [x + speed] for right,
    and not at all when [nextMove] is none of the four. *)
Theorem update_moves_head (keysDown : list string) (deltaTime : float)
    (this : t) (store : list Position) :
  let this' := fst (update keysDown deltaTime this store) in
  let store' := snd (update keysDown deltaTime this store) in
  let p := position store (transform this) in
  distinctDirections this ->
  transform this < List.length store ->
  nextBodyPart this <> Some (transform this) ->
  (timeLeftToMove this - deltaTime <=? 0)%float = true ->
  timeLeftToMove this' = timeBetweenMoves this /\
  (nextMove this' = up this ->
   position store' (transform this) = mkPosition (x p) (y p - speed this)) /\
  (nextMove this' = down this ->
   position store' (transform this) = mkPosition (x p) (y p + speed this)) /\
  (nextMove this' = left this ->
   position store' (transform this) = mkPosition (x p - speed this) (y p)) /\
  (nextMove this' = right this ->
   position store' (transform this) = mkPosition (x p + speed this) (y p)) /\
  (~ movesAlongAxis this' -> position store' (transform this) = p).
Proof.
  intros this' store' p Hd Hv Hb Hdue.
  unfold this', store'. rewrite update_shape. cbv zeta. rewrite Hdue.
  set (m := nextMove (readKeys keysDown this)).
  cbn [fst snd timeLeftToMove setTimeLeftToMove nextMove setNextMove].
  set (moving := setTimeLeftToMove (timeBetweenMoves this) (setNextMove m this)).
  assert (Hhead : position
            (moveBody moving (x p) (y p) (moveHead moving store)) (transform this) =
          position (moveHead moving store) (transform this))
    by (apply moveBody_other; exact Hb).
  fold p. rewrite Hhead.
  pose proof (@moveHead_head moving store Hd Hv) as Hmove. cbv zeta in Hmove.
  change (position store (transform moving)) with p in Hmove.
  change (transform moving) with (transform this) in Hmove.
  change (nextMove moving) with m in Hmove.
  change (up moving) with (up this) in Hmove.
  change (down moving) with (down this) in Hmove.
  change (left moving) with (left this) in Hmove.
  change (right moving) with (right this) in Hmove.
  change (speed moving) with (speed this) in Hmove.
  rewrite Hmove. clear Hmove Hhead.
  apply distinct_pairs in Hd.
  destruct Hd as (Hud & Hul & Hur & Hdl & Hdr & Hlr).
  split; [reflexivity|].
  unfold movesAlongAxis. cbn [nextMove up down left right setTimeLeftToMove setNextMove moving].
  destruct (String.eqb_spec m (up this)) as [Eu|Eu];
    destruct (String.eqb_spec m (down this)) as [Ed|Ed];
    destruct (String.eqb_spec m (left this)) as [El|El];
    destruct (String.eqb_spec m (right this)) as [Er|Er];
    try congruence;
    repeat split; intros H; try congruence; try reflexivity;
    exfalso; apply H; simpl; auto.
Qed.

Lemma update_moves_head_witness :
  position (snd (update ["ArrowRight"%string] 1%float snakeHead snakeStore)) 0 =
  mkPosition 60 50.
Proof.
  destruct (@update_moves_head ["ArrowRight"%string] 1%float snakeHead snakeStore)
    as (_ & _ & _ & _ & H & _).
  - unfold distinctDirections. simpl.
    repeat constructor; simpl; intuition discriminate.
  - simpl. lia.
  - discriminate.
  - reflexivity.
  - exact (H eq_refl).
Defined.

(** X4. When the component moves and has a next body part, that body
    part takes the place the head had before the move. *)
Theorem update_body_follows (keysDown : list string) (deltaTime : float)
    (this : t) (store : list Position) (bodyPart : Loc) :
  (timeLeftToMove this - deltaTime <=? 0)%float = true ->
  nextBodyPart this = Some bodyPart ->
  bodyPart < List.length store ->
  position (snd (update keysDown deltaTime this store)) bodyPart =
  position store (transform this).
Proof.
  intros Hdue Hb Hv. rewrite update_shape. cbv zeta. rewrite Hdue. cbn [snd].
  rewrite moveBody_part with (b := bodyPart).
  - destruct (position store (transform this)); reflexivity.
  - exact Hb.
  - rewrite moveHead_length. exact Hv.
Qed.

Lemma update_body_follows_witness :
  position (snd (update ["ArrowRight"%string] 1%float snakeHead snakeStore)) 1 =
  mkPosition 50 50.
Proof.
  refine (@update_body_follows ["ArrowRight"%string] 1%float snakeHead snakeStore 1
            eq_refl eq_refl _).
  simpl. lia.
Defined.

(** X5. An update writes to no transform but that of the component and
    that of its next body part: the body parts further down the snake
    stay where they are, and the store keeps its size. *)
Theorem update_moves_nothing_else (keysDown : list string) (deltaTime : float)
    (this : t) (store : list Position) (a : Loc) :
  a <> transform this ->
  nextBodyPart this <> Some a ->
  position (snd (update keysDown deltaTime this store)) a = position store a /\
  List.length (snd (update keysDown deltaTime this store)) = List.length store.
Proof.
  intros Hh Hb. rewrite update_shape. cbv zeta.
  destruct (timeLeftToMove this - deltaTime <=? 0)%float; cbn [snd];
    [|split; reflexivity].
  rewrite moveBody_other by exact Hb.
  rewrite moveHead_other by exact Hh.
  rewrite moveBody_length, moveHead_length. split; reflexivity.
Qed.

Lemma update_moves_nothing_else_witness :
  position (snd (update ["ArrowRight"%string] 1%float snakeHead snakeStore)) 2 =
  mkPosition 50 30.
Proof.
  refine (proj1 (@update_moves_nothing_else ["ArrowRight"%string] 1%float snakeHead
                   snakeStore 2 _ _)); discriminate.
Defined.

(** X6. An update changes [nextMove] and [timeLeftToMove] only, and a
    move that is one of the four directions stays one of them. *)
Theorem update_keeps_directions (keysDown : list string) (deltaTime : float)
    (this : t) (store : list Position) :
  let this' := fst (update keysDown deltaTime this store) in
  this' = setTimeLeftToMove (timeLeftToMove this') (setNextMove (nextMove this') this) /\
  (movesAlongAxis this -> movesAlongAxis this').
Proof.
  cbv zeta. rewrite update_shape. cbv zeta.
  pose proof (readKeys_nextMove keysDown this) as Hm.
  set (m := nextMove (readKeys keysDown this)) in *.
  assert (Hin : movesAlongAxis this ->
                In m [up this; down this; left this; right this]).
  { unfold movesAlongAxis. intros H. rewrite Hm.
    destruct (includes keysDown "ArrowDown"); [simpl; auto|].
    destruct (includes keysDown "ArrowUp"); [simpl; auto|].
    destruct (includes keysDown "ArrowRight"); [simpl; auto|].
    destruct (includes keysDown "ArrowLeft"); [simpl; auto|].
    exact H. }
  destruct (timeLeftToMove this - deltaTime <=? 0)%float; cbn [fst];
    (split; [reflexivity | exact Hin]).
Qed.

Lemma update_keeps_directions_witness :
  movesAlongAxis (fst (update ["ArrowUp"%string; "Space"%string] 1%float snakeHead snakeStore)).
Proof.
  refine (proj2 (@update_keeps_directions ["ArrowUp"%string; "Space"%string] 1
                   snakeHead snakeStore) _).
  unfold movesAlongAxis. simpl. auto.
Defined.

(** X7. Not-a-number is absorbing: once the time left is NaN, or after a
    frame whose [deltaTime] is NaN, the time left stays NaN and no
    update moves anything, whatever the keys and the frame times are. *)
Theorem nan_stops_the_snake (frames : list (list string * float))
    (keysDown : list string) (deltaTime : float)
    (this : t) (store : list Position) :
  is_nan (timeLeftToMove this) = true \/ is_nan deltaTime = true ->
  let stuck := updates ((keysDown, deltaTime) :: frames) this store in
  snd stuck = store /\ is_nan (timeLeftToMove (fst stuck)) = true.
Proof.
  intros Hnan.
  assert (Hstep : forall keys dt (c : t) (s : list Position),
             is_nan (timeLeftToMove c) = true \/ is_nan dt = true ->
             snd (update keys dt c s) = s /\
             is_nan (timeLeftToMove (fst (update keys dt c s))) = true).
  { intros keys dt c s H. apply sub_nan in H.
    rewrite update_shape. cbv zeta.
    rewrite (nan_not_leb _ 0 H). split; [reflexivity | exact H]. }
  cbv zeta. revert keysDown deltaTime this store Hnan.
  induction frames as [|[keys dt] frames IH]; intros keysDown deltaTime this store Hnan;
    destruct (Hstep keysDown deltaTime this store Hnan) as [Hs Ht];
    cbn [updates];
    destruct (update keysDown deltaTime this store) as [this' store'];
    cbn [fst snd] in *.
  - split; assumption.
  - subst store'. apply IH. left. exact Ht.
Qed.

Lemma nan_stops_the_snake_witness :
  snd (updates [(["ArrowLeft"%string], nan); ([], 5%float); (["ArrowUp"%string], 5%float)]
         snakeHead snakeStore) = snakeStore.
Proof.
  exact (proj1 (@nan_stops_the_snake [([], 5%float); (["ArrowUp"%string], 5%float)]
                  ["ArrowLeft"%string] nan snakeHead snakeStore
                  (or_intror eq_refl))).
Defined.

End KeyboardSpec.

(* ================================================================== *)
(** ** More on the scene with logical coordinates *)
(* ================================================================== *)

(** X8. [update] invokes the [update] of the game objects that have one,
    once each and in the order of the array, not in layer order; it skips
    the others, makes no call on the context itself, and does not ask
    whether the scene has started. *)
Theorem update_in_insertion_order (this : Scene.t) (w w' : World) (u : unit) :
  Scene.update this w = Normal u w' ->
  invocations (emitted w (Scene.update this w)) =
    map (pair OnUpdate)
        (List.filter (has OnUpdate) (nth (Scene.gameObjects this) (heap w) [])) /\
  sceneCalls (emitted w (Scene.update this w)) = [] /\
  heap w' = heap w.
Proof.
  intros H. rewrite Scene_update_unfold in *.
  pose proof (loop_heap OnUpdate noEv noFx updateObject updateObject_eq
                (nth (Scene.gameObjects this) (heap w) []) w) as Hheap.
  destruct (loop_normal OnUpdate noEv noFx updateObject updateObject_eq no_calls _ _ H)
    as (evs & Ht & Hc & Hi & _).
  rewrite H in *. simpl in Hheap.
  rewrite (emitted_app w (Normal u w') evs Ht).
  repeat split; try assumption.
  rewrite Hc. clear. induction (nth _ _ _); simpl; auto.
Qed.

Lemma update_in_insertion_order_witness :
  invocations
    (emitted (blankWorld 800 400 [actor 5; sprite 1; actor (-1)])
       (Scene.update (sceneWith 20 1) (blankWorld 800 400 [actor 5; sprite 1; actor (-1)])))
  = [(OnUpdate, actor 5); (OnUpdate, actor (-1))].
Proof.
  destruct (Scene.update (sceneWith 20 1)
              (blankWorld 800 400 [actor 5; sprite 1; actor (-1)])) as [u w'|e w'] eqn:H.
  - rewrite <- H.
    exact (proj1 (update_in_insertion_order (sceneWith 20 1)
                    (blankWorld 800 400 [actor 5; sprite 1; actor (-1)]) H)).
  - vm_compute in H. discriminate H.
Defined.

(** X9. A scene as the constructor makes it has an array of its own,
    new and empty, and leaves the arrays there were alone; its [-1]
    defaults switch logical coordinates off, so that its first [draw]
    returns and is the clearing of the canvas under the camera transform
    and nothing else: no letterbox, no bar, no method invoked. *)
Theorem new_scene_draws_background_only
    (backgroundColor : string) (cam : Camera.Transform) (w : World) :
  let this := fst (Scene_constructor backgroundColor w) in
  let w1 := snd (Scene_constructor backgroundColor w) in
  nth (Scene.gameObjects this) (heap w1) [sprite 0] = [] /\
  (forall a, a < List.length (heap w) -> nth a (heap w1) [] = nth a (heap w) []) /\
  isNormal (Scene.draw cam this w1) = true /\
  emitted w1 (Scene.draw cam this w1) =
    [CallFillStyle backgroundColor;
     CallFillRect 0 0 (canvasWidth (ctx w)) (canvasHeight (ctx w));
     CallSave;
     CallScale (Camera.scaleX cam) (Camera.scaleY cam);
     CallTranslate (- Camera.x cam)%float (- Camera.y cam)%float;
     CallRestore;
     CallFillStyle "black"].
Proof.
  cbv zeta. unfold Scene_constructor. cbn [fst snd Scene.gameObjects heap].
  split; [apply nth_copy|].
  split; [intros a Ha; apply app_nth1, Ha|].
  rewrite Scene_draw_unfold. cbv zeta.
  unfold drawOrder. cbn [Scene.gameObjects heap ctx trace].
  rewrite nth_copy. cbn [sorted forOf ret].
  split; [reflexivity|].
  apply emitted_app. cbn [resWorld trace]. rewrite <- app_assoc. reflexivity.
Qed.

Lemma new_scene_draws_background_only_witness :
  nth 0 (heap (snd (Scene_constructor "teal" (blankWorld 800 400 [sprite 0])))) []
  = [sprite 0].
Proof.
  destruct (new_scene_draws_background_only "teal" restingCamera
              (blankWorld 800 400 [sprite 0])) as (_ & H & _).
  exact (H 0 (Nat.lt_0_succ 0)).
Defined.

Lemma Scene_loop_saved (cam : Camera.Transform) (this : Scene.t) (w : World) :
  (forall o h, In o (nth (Scene.gameObjects this) (heap w) []) ->
               go_draw o = Some h -> balanced h) ->
  let l := drawOrder (Scene.gameObjects this) w in
  let pro := prologue cam this (ctx w) in
  saved (ctx (resWorld
    (forOf drawObject l
       (mkWorld (performAll pro (ctx w)) (heap w ++ [l]) (trace w ++ pro))))) =
  current (setFillStyle (Scene.backgroundColor this) (ctx w)) :: saved (ctx w).
Proof.
  intros Hbalanced l pro.
  assert (Hsorted : forall o h, In o l -> hookOf OnDraw o = Some h -> balanced h).
  { intros o h Hin. apply Hbalanced.
    exact (Permutation_in _ (sorted_perm byLayer _) Hin). }
  rewrite (loop_saved OnDraw drawEv drawFx drawObject drawObject_eq setFilter_saved
             _ Hsorted).
  apply prologue_saved.
Qed.

(** X10. When every [draw] method leaves the stack of saved states as it
    found it, a [draw] of the scene that returns hands the drawing state
    back as the caller had it but for the fill style: the transform and
    the filter are the caller's (the glow of a layer -1 object does not
    stay on), the fill style is ["black"]. *)
Theorem draw_restores_drawing_state
    (cam : Camera.Transform) (this : Scene.t) (w w' : World) (u : unit) :
  (forall o h, In o (nth (Scene.gameObjects this) (heap w) []) ->
               go_draw o = Some h -> balanced h) ->
  Scene.draw cam this w = Normal u w' ->
  current (ctx w') =
  mkDrawingState (transform (current (ctx w))) "black" (filter (current (ctx w))).
Proof.
  intros Hbalanced Hdraw.
  pose proof (Scene_loop_saved cam this w Hbalanced) as Hsaved. cbv zeta in Hsaved.
  destruct (Scene_draw_normal _ _ _ Hdraw) as (evs & w2 & Hloop & Hctx & _).
  rewrite Hloop in Hsaved. cbn [resWorld] in Hsaved.
  rewrite Hctx. unfold epilogue, barCalls.
  destruct (usingLogicalCoordinates this); [destruct (barsAtSides this (ctx w))|];
    simpl; unfold restore; rewrite Hsaved; reflexivity.
Qed.

Lemma sprites_balanced (o : GameObject) (h : Hook) :
  In o [sprite 5; sprite (-1); faultyObject] -> go_draw o = Some h -> balanced h.
Proof.
  intros [<-|[<-|[<-|[]]]] E; injection E as <-; intros c; reflexivity.
Qed.

Lemma draw_restores_drawing_state_witness :
  current (ctx (resWorld
    (Scene.draw restingCamera (sceneWith 20 1)
       (blankWorld 800 400 [sprite 5; sprite (-1)])))) =
  mkDrawingState [] "black" "none".
Proof.
  destruct (Scene.draw restingCamera (sceneWith 20 1)
              (blankWorld 800 400 [sprite 5; sprite (-1)])) as [u w'|e w'] eqn:H.
  - refine (draw_restores_drawing_state restingCamera (sceneWith 20 1)
              (blankWorld 800 400 [sprite 5; sprite (-1)]) _ H).
    intros o h Hin. apply sprites_balanced. simpl in *. tauto.
  - vm_compute in H. discriminate H.
Defined.

(** X11. [draw] has nothing that undoes its [save] when a [draw] method
    throws: it is then left with the state it saved still on the stack,
    above what the caller had there (the methods leaving the stack as
    they found it). *)
Theorem draw_throw_leaves_saved_state
    (cam : Camera.Transform) (this : Scene.t) (w w' : World) (e : Exn) :
  (forall o h, In o (nth (Scene.gameObjects this) (heap w) []) ->
               go_draw o = Some h -> balanced h) ->
  Scene.draw cam this w = Raise e w' ->
  saved (ctx w') =
  mkDrawingState (transform (current (ctx w))) (Scene.backgroundColor this)
                 (filter (current (ctx w)))
  :: saved (ctx w).
Proof.
  intros Hbalanced Hdraw.
  pose proof (Scene_loop_saved cam this w Hbalanced) as Hsaved. cbv zeta in Hsaved.
  rewrite Scene_draw_unfold in Hdraw. cbv zeta in Hdraw.
  destruct (forOf drawObject _ _) as [u w2|e2 w2]; [discriminate|].
  assert (w2 = w') by congruence. subst w2.
  exact Hsaved.
Qed.

Lemma draw_throw_leaves_saved_state_witness :
  saved (ctx (resWorld
    (Scene.draw restingCamera (sceneWith 20 1)
       (blankWorld 800 400 [sprite 5; sprite (-1); faultyObject])))) =
  [mkDrawingState [] "navy" "none"].
Proof.
  destruct (Scene.draw restingCamera (sceneWith 20 1)
              (blankWorld 800 400 [sprite 5; sprite (-1); faultyObject]))
    as [u w'|e w'] eqn:H.
  - vm_compute in H. discriminate H.
  - exact (draw_throw_leaves_saved_state restingCamera (sceneWith 20 1)
             (blankWorld 800 400 [sprite 5; sprite (-1); faultyObject])
             sprites_balanced H).
Defined.

Lemma insertSorted_onLayer (z : Z) (v : GameObject) (l : list GameObject) :
  onLayer z (insertSorted byLayer v l) = onLayer z (v :: l).
Proof.
  unfold onLayer. induction l as [|u l IH]; simpl; [reflexivity|].
  unfold byLayer at 1. destruct (0 <? layer v - layer u)%Z eqn:E; [|reflexivity].
  apply Z.ltb_lt in E. simpl. rewrite IH. simpl.
  destruct (layer u =? z)%Z eqn:Eu, (layer v =? z)%Z eqn:Ev; try reflexivity.
  apply Z.eqb_eq in Eu, Ev. lia.
Qed.

Lemma sorted_onLayer (z : Z) (l : list GameObject) :
  onLayer z (sorted byLayer l) = onLayer z l.
Proof.
  induction l as [|v l IH]; simpl; [reflexivity|].
  rewrite insertSorted_onLayer. unfold onLayer in *. simpl. rewrite IH. reflexivity.
Qed.

Lemma filter_swap (A : Type) (f g : A -> bool) (l : list A) :
  List.filter f (List.filter g l) = List.filter g (List.filter f l).
Proof.
  induction l as [|a l IH]; simpl; [reflexivity|].
  destruct (g a) eqn:Eg, (f a) eqn:Ef; simpl; rewrite ?Eg, ?Ef, IH; reflexivity.
Qed.

(** X12. Game objects on the same layer are drawn in the order of the
    array: the sort, stable as ECMAScript 2019 has it, keeps their
    order, so that among equals the one added later is drawn on top. *)
Theorem draw_keeps_order_within_layer
    (cam : Camera.Transform) (this : Scene.t) (w w' : World) (u : unit) (z : Z) :
  Scene.draw cam this w = Normal u w' ->
  onLayer z (map snd (invocations (emitted w (Scene.draw cam this w)))) =
  onLayer z (List.filter (has OnDraw) (nth (Scene.gameObjects this) (heap w) [])).
Proof.
  intros H.
  destruct (Scene_draw_calls cam this w) as (n & Hn & _ & Hinv).
  rewrite H in Hn, Hinv |- *. cbn [isNormal] in Hn.
  rewrite Hinv, map_snd_pair, (Hn eq_refl), firstn_all.
  unfold onLayer. rewrite filter_swap.
  fold (onLayer z (drawOrder (Scene.gameObjects this) w)).
  unfold drawOrder. rewrite sorted_onLayer. unfold onLayer.
  apply filter_swap.
Qed.

Lemma draw_keeps_order_within_layer_witness :
  map snd (invocations
    (emitted (blankWorld 800 400 [actor 3; sprite 5; sprite 3])
       (Scene.draw restingCamera (sceneWith 20 1)
          (blankWorld 800 400 [actor 3; sprite 5; sprite 3]))))
  = [actor 3; sprite 3; sprite 5] /\
  onLayer 3 (map snd (invocations
    (emitted (blankWorld 800 400 [actor 3; sprite 5; sprite 3])
       (Scene.draw restingCamera (sceneWith 20 1)
          (blankWorld 800 400 [actor 3; sprite 5; sprite 3])))))
  = [actor 3; sprite 3].
Proof.
  split; [vm_compute; reflexivity|].
  destruct (Scene.draw restingCamera (sceneWith 20 1)
              (blankWorld 800 400 [actor 3; sprite 5; sprite 3])) as [u w'|e w'] eqn:H.
  - rewrite <- H.
    exact (draw_keeps_order_within_layer restingCamera (sceneWith 20 1)
             (blankWorld 800 400 [actor 3; sprite 5; sprite 3]) 3 H).
  - vm_compute in H. discriminate H.
Defined.

(* ================================================================== *)
(** ** More on the older scene *)
(* ================================================================== *)

Lemma hardcodedPrologue_saved (old : HardcodedScene.t) (c : Context) :
  saved (performAll (hardcodedPrologue old c) c) =
  current (setFillStyle (HardcodedScene.backgroundColor old) c) :: saved c.
Proof.
  unfold hardcodedPrologue.
  destruct (canvasHeight c <? canvasWidth c)%float; reflexivity.
Qed.

(** What [HardcodedScene.draw] did, whether it returned or was left by a
    throw after [n] game objects. *)
Lemma HardcodedScene_draw_summary (old : HardcodedScene.t) (w : World) :
  let r := HardcodedScene.draw old w in
  let l := drawOrder (HardcodedScene.gameObjects old) w in
  let pro := hardcodedPrologue old (ctx w) in
  exists n evs w2,
    forOf drawObject l
      (mkWorld (performAll pro (ctx w)) (heap w ++ [l]) (trace w ++ pro)) =
    match r with
    | Normal _ _ => Normal tt w2
    | Raise e _ => Raise e w2
    end /\
    (isNormal r = true -> n = List.length l) /\
    emitted w r =
      pro ++ evs ++
      (if isNormal r then hardcodedEpilogue (ctx w) (ctx w2) else []) /\
    ctx (resWorld r) =
      (if isNormal r then performAll (hardcodedEpilogue (ctx w) (ctx w2)) (ctx w2)
       else ctx w2) /\
    heap (resWorld r) = heap w ++ [l] /\
    sceneCalls evs = map filterCall (firstn n l) /\
    invocations evs = map (pair OnDraw) (List.filter (has OnDraw) (firstn n l)) /\
    Forall (entryRule entersWithOwnFilter) evs.
Proof.
  cbv zeta. rewrite HardcodedScene_draw_unfold. cbv zeta.
  set (l := drawOrder (HardcodedScene.gameObjects old) w).
  set (pro := hardcodedPrologue old (ctx w)).
  set (w1 := mkWorld (performAll pro (ctx w)) (heap w ++ [l]) (trace w ++ pro)).
  pose proof (loop_heap OnDraw drawEv drawFx drawObject drawObject_eq l w1) as Hheap.
  destruct (loop_entry OnDraw drawEv drawFx drawObject drawObject_eq filter_calls
              entersWithOwnFilter setFilter_entry l w1) as (evs' & Ht' & Hentry).
  destruct (forOf drawObject l w1) as [[] w2|e w2] eqn:Hloop;
    cbn [resWorld] in Hheap, Ht'; unfold w1 in Hheap, Ht'; cbn [heap trace] in Hheap, Ht'.
  - destruct (loop_normal OnDraw drawEv drawFx drawObject drawObject_eq filter_calls _ _ Hloop)
      as (evs & Ht & Hc & Hi & _).
    unfold w1 in Ht. cbn [trace] in Ht. rewrite Ht in Ht'.
    apply app_inv_head in Ht'. subst evs'.
    rewrite concat_singletons in Hc.
    exists (List.length l), evs, w2. rewrite firstn_all. cbn [isNormal resWorld ctx heap].
    repeat split; try assumption.
    apply emitted_app. cbn [resWorld trace]. rewrite Ht, <- !app_assoc. reflexivity.
  - destruct (loop_raise OnDraw drawEv drawFx drawObject drawObject_eq filter_calls _ _ Hloop)
      as (evs & before & o & after & h & c & Ht & Hl & Hh & _ & Hc & Hi & _).
    unfold w1 in Ht. cbn [trace] in Ht. rewrite Ht in Ht'.
    apply app_inv_head in Ht'. subst evs'.
    rewrite concat_singletons in Hc.
    exists (S (List.length before)), (evs ++ [Invoke OnDraw o c]), w2.
    rewrite Hl, firstn_middle. cbn [isNormal resWorld].
    rewrite sceneCalls_app, invocations_app, Hc, Hi, filter_app, map_app.
    simpl. rewrite (has_some OnDraw o Hh). simpl. rewrite !app_nil_r.
    repeat split; try assumption; try discriminate;
      try (rewrite <- Hl; exact Hheap); try (rewrite map_app; reflexivity).
    apply emitted_app. cbn [resWorld]. rewrite Ht, <- !app_assoc. reflexivity.
Qed.

(** X13. The older [draw] always lays the scene out for a logical width
    of 20 and an aspect ratio of 100, and knows no camera: on a canvas
    wider than high it translates by [(cw/2 - (ch/100)/2, 0)] and scales
    by [ch/20], otherwise (a square canvas too) it translates by
    [(0, (ch - cw)/2)] and scales by [cw/20]; there is no other
    translate or scale.  When it returns it has painted two bars, placed
    by the values computed before the loop and oriented by the size the
    canvas has after it. *)
Theorem hardcoded_draw_geometry (old : HardcodedScene.t) (w : World) :
  let cw := canvasWidth (ctx w) in
  let ch := canvasHeight (ctx w) in
  let r := HardcodedScene.draw old w in
  let cw' := canvasWidth (ctx (resWorld r)) in
  let ch' := canvasHeight (ctx (resWorld r)) in
  let letterBox1End :=
    if (ch <? cw)%float then (cw / 2 - (ch / 100) / 2)%float else ((ch - cw) / 2)%float in
  let letterBox2Start :=
    if (ch <? cw)%float then (cw / 2 + (ch / 100) / 2)%float else ((cw + ch) / 2)%float in
  exists n,
    sceneCalls (emitted w r) =
    [CallFillStyle (HardcodedScene.backgroundColor old); CallFillRect 0 0 cw ch; CallSave]
    ++ (if (ch <? cw)%float then
          [CallTranslate letterBox1End 0; CallScale (ch / 20)%float (ch / 20)%float]
        else
          [CallTranslate 0 letterBox1End; CallScale (cw / 20)%float (cw / 20)%float])
    ++ map filterCall (firstn n (drawOrder (HardcodedScene.gameObjects old) w))
    ++ (if isNormal r then
          [CallRestore; CallFillStyle "black"]
          ++ (if (ch' <? cw')%float then
                [CallFillRect 0 0 letterBox1End ch';
                 CallFillRect letterBox2Start 0 cw' ch']
              else
                [CallFillRect 0 0 cw' letterBox1End;
                 CallFillRect 0 letterBox2Start cw' ch'])
        else []).
Proof.
  cbv zeta.
  destruct (HardcodedScene_draw_summary old w)
    as (n & evs & w2 & _ & _ & Hem & Hctx & _ & Hc & _).
  cbv zeta in Hem, Hctx. exists n. rewrite Hem, Hctx, !sceneCalls_app, Hc.
  rewrite (sceneCalls_id (hardcodedPrologue_calls _ _)).
  destruct (isNormal (HardcodedScene.draw old w)).
  - rewrite (sceneCalls_id (hardcodedEpilogue_calls _ _)).
    rewrite performAll_width, performAll_height.
    unfold hardcodedPrologue, hardcodedEpilogue, hardcodedBoxes.
    destruct (canvasHeight (ctx w) <? canvasWidth (ctx w))%float;
      rewrite <- !app_assoc; reflexivity.
  - unfold hardcodedPrologue.
    destruct (canvasHeight (ctx w) <? canvasWidth (ctx w))%float;
      rewrite <- !app_assoc; reflexivity.
Qed.

(** X14. The older [draw], too, goes through a sorted copy of the array:
    of two game objects drawn, the first does not have the greater
    layer; when it returns, those drawn are the objects of the array
    that have a [draw]; each [draw] is entered with the filter of its
    own layer; and the array of the scene is as it was. *)
Theorem hardcoded_draw_in_layer_order (old : HardcodedScene.t) (w : World) :
  HardcodedScene.gameObjects old < List.length (heap w) ->
  let r := HardcodedScene.draw old w in
  let original := nth (HardcodedScene.gameObjects old) (heap w) [] in
  let drawn := map snd (invocations (emitted w r)) in
  (forall before a between b after,
     drawn = before ++ a :: between ++ b :: after -> (layer a <= layer b)%Z) /\
  (isNormal r = true -> Permutation drawn (List.filter (has OnDraw) original)) /\
  (forall o c, In (Invoke OnDraw o c) (emitted w r) ->
               filter (current c) = filterFor o) /\
  nth (HardcodedScene.gameObjects old) (heap (resWorld r)) [] = original.
Proof.
  intros Hvalid r original drawn.
  destruct (HardcodedScene_draw_summary old w)
    as (n & evs & w2 & _ & Hn & Hem & _ & Hheap & _ & Hi & Hentry).
  cbv zeta in Hn, Hem, Hheap. fold r in Hn, Hem, Hheap.
  assert (Htail : Forall (fun e => isSceneCall e = true)
                    (if isNormal r then hardcodedEpilogue (ctx w) (ctx w2) else []))
    by (destruct (isNormal r); [apply hardcodedEpilogue_calls | constructor]).
  assert (Hdrawn : drawn = List.filter (has OnDraw)
                     (firstn n (drawOrder (HardcodedScene.gameObjects old) w))).
  { unfold drawn. rewrite Hem, !invocations_app, Hi.
    rewrite (invocations_calls (hardcodedPrologue_calls _ _)), (invocations_calls Htail).
    simpl. rewrite app_nil_r. apply map_snd_pair. }
  repeat split.
  - intros before a between b after E.
    apply StronglySorted_pair with (R := layerLe) (2 := E).
    rewrite Hdrawn.
    apply StronglySorted_filter, StronglySorted_firstn, sorted_layers.
  - intros Hnormal. rewrite Hdrawn, (Hn Hnormal), firstn_all.
    apply filter_perm, sorted_perm.
  - intros o c Hin. rewrite Hem in Hin.
    apply in_app_or in Hin. destruct Hin as [Hin|Hin];
      [exfalso; exact (In_calls _ _ _ (hardcodedPrologue_calls _ _) Hin)|].
    apply in_app_or in Hin. destruct Hin as [Hin|Hin];
      [|exfalso; exact (In_calls _ _ _ Htail Hin)].
    rewrite Forall_forall in Hentry. exact (Hentry _ Hin).
  - rewrite Hheap. apply app_nth1, Hvalid.
Qed.

Lemma hardcoded_draw_in_layer_order_witness :
  nth 0 (heap (resWorld
           (HardcodedScene.draw (HardcodedScene.mk "navy" 0 false None)
              (blankWorld 800 400 [sprite 5; sprite (-1); actor 3])))) []
  = [sprite 5; sprite (-1); actor 3].
Proof.
  pose proof (hardcoded_draw_in_layer_order (HardcodedScene.mk "navy" 0 false None)
                (blankWorld 800 400 [sprite 5; sprite (-1); actor 3])
                (Nat.lt_0_succ 0)) as H.
  cbv zeta in H. exact (proj2 (proj2 (proj2 H))).
Defined.

(** X15. When every [draw] method leaves the stack of saved states as it
    found it, a [draw] of the older scene that returns hands back the
    caller's transform, filter and stack of saved states, with the fill
    style ["black"]: the hard-coded letterbox does not stay on. *)
Theorem hardcoded_draw_restores_drawing_state
    (old : HardcodedScene.t) (w w' : World) (u : unit) :
  (forall o h, In o (nth (HardcodedScene.gameObjects old) (heap w) []) ->
               go_draw o = Some h -> balanced h) ->
  HardcodedScene.draw old w = Normal u w' ->
  current (ctx w') =
    mkDrawingState (transform (current (ctx w))) "black" (filter (current (ctx w))) /\
  saved (ctx w') = saved (ctx w).
Proof.
  intros Hbalanced Hdraw.
  destruct (HardcodedScene_draw_summary old w)
    as (n & evs & w2 & Hloop & _ & _ & Hctx & _).
  cbv zeta in Hloop, Hctx. rewrite Hdraw in Hloop, Hctx. cbn [isNormal resWorld] in Hctx.
  assert (Hsorted : forall o h, In o (drawOrder (HardcodedScene.gameObjects old) w) ->
                                hookOf OnDraw o = Some h -> balanced h).
  { intros o h Hin. apply Hbalanced.
    exact (Permutation_in _ (sorted_perm byLayer _) Hin). }
  pose proof (loop_saved OnDraw drawEv drawFx drawObject drawObject_eq setFilter_saved
                _ Hsorted
                (mkWorld (performAll (hardcodedPrologue old (ctx w)) (ctx w))
                         (heap w ++ [drawOrder (HardcodedScene.gameObjects old) w])
                         (trace w ++ hardcodedPrologue old (ctx w)))) as Hsaved.
  rewrite Hloop in Hsaved. cbn [resWorld ctx] in Hsaved.
  rewrite hardcodedPrologue_saved in Hsaved.
  rewrite Hctx. unfold hardcodedEpilogue.
  destruct (canvasHeight (ctx w2) <? canvasWidth (ctx w2))%float;
    simpl; unfold restore; rewrite Hsaved; simpl; auto.
Qed.

Lemma hardcoded_draw_restores_drawing_state_witness :
  current (ctx (resWorld
    (HardcodedScene.draw (HardcodedScene.mk "navy" 0 false None)
       (blankWorld 800 400 [sprite 5; sprite (-1)])))) =
  mkDrawingState [] "black" "none".
Proof.
  destruct (HardcodedScene.draw (HardcodedScene.mk "navy" 0 false None)
              (blankWorld 800 400 [sprite 5; sprite (-1)])) as [u w'|e w'] eqn:H.
  - refine (proj1 (hardcoded_draw_restores_drawing_state
                     (HardcodedScene.mk "navy" 0 false None)
                     (blankWorld 800 400 [sprite 5; sprite (-1)]) _ H)).
    intros o h Hin. apply sprites_balanced. simpl in *. tauto.
  - vm_compute in H. discriminate H.
Defined.

Lemma HardcodedScene_start_unfold (old : HardcodedScene.t) (w : World) :
  HardcodedScene.hasStarted old = false ->
  HardcodedScene._start old w =
  (HardcodedScene.setStarted old,
   let l := nth (HardcodedScene.gameObjects old) (heap w) [] in
   match HardcodedScene.start old with
   | Some h =>
       match h (ctx w) with
       | Returns c =>
           forOf startObject l (mkWorld c (heap w) (trace w ++ [SceneStart (ctx w)]))
       | Throws e c => Raise e (mkWorld c (heap w) (trace w ++ [SceneStart (ctx w)]))
       end
   | None => forOf startObject l w
   end).
Proof.
  intros H. unfold HardcodedScene._start. rewrite H. simpl. f_equal.
  destruct (HardcodedScene.start old) as [h|]; unfold bind, invoke, readArray, ret; simpl.
  - destruct (h (ctx w)); reflexivity.
  - reflexivity.
Qed.

(** X16. The first frame of the older scene: when [_start], on a scene
    that has not started, and then [update] both return, what was
    invoked on the game objects is the [start] of each one that has it,
    in the order of the array, and then the [update] of each one that
    has it, in the same order; the scene made no call on the context;
    and a later [_start] does nothing. *)
Theorem hardcoded_first_frame
    (old : HardcodedScene.t) (w w1 w2 : World) (u1 u2 : unit) :
  HardcodedScene.hasStarted old = false ->
  let objects := nth (HardcodedScene.gameObjects old) (heap w) [] in
  let started := fst (HardcodedScene._start old w) in
  let first := snd (HardcodedScene._start old w) in
  let second := HardcodedScene.update started w1 in
  first = Normal u1 w1 ->
  second = Normal u2 w2 ->
  invocations (emitted w first ++ emitted w1 second) =
    map (pair OnStart) (List.filter (has OnStart) objects) ++
    map (pair OnUpdate) (List.filter (has OnUpdate) objects) /\
  sceneCalls (emitted w first ++ emitted w1 second) = [] /\
  HardcodedScene._start started w2 = (started, Normal tt w2).
Proof.
  intros Hfresh objects started first second Hfirst Hsecond.
  pose proof (HardcodedScene_start_unfold old w Hfresh) as Hun. cbv zeta in Hun.
  fold objects in Hun.
  assert (Hs : started = HardcodedScene.setStarted old)
    by (unfold started; rewrite Hun; reflexivity).
  assert (Hf : first = snd (HardcodedScene._start old w)) by reflexivity.
  rewrite Hun in Hf. cbn [snd] in Hf.
  unfold second in *. clear second. clearbody started first. subst started.
  rewrite Hf in Hfirst. clear Hun.
  assert (Hstart : exists evs,
             emitted w (Normal u1 w1) = evs /\
             invocations evs = map (pair OnStart) (List.filter (has OnStart) objects) /\
             sceneCalls evs = [] /\ heap w1 = heap w).
  { destruct (HardcodedScene.start old) as [h|].
    - destruct (h (ctx w)) as [c|e c]; [|discriminate].
      destruct (startLoop_normal _ _ Hfirst) as (evs & Ht & Hc & _ & Hi & _).
      pose proof (loop_heap OnStart noEv noFx startObject startObject_eq objects
                    (mkWorld c (heap w) (trace w ++ [SceneStart (ctx w)]))) as Hheap.
      rewrite Hfirst in Hheap. cbn [resWorld heap] in Hheap. cbn [trace] in Ht.
      exists ([SceneStart (ctx w)] ++ evs). repeat split; try assumption.
      apply emitted_app. cbn [resWorld]. rewrite Ht, <- app_assoc. reflexivity.
    - destruct (startLoop_normal _ _ Hfirst) as (evs & Ht & Hc & _ & Hi & _).
      pose proof (loop_heap OnStart noEv noFx startObject startObject_eq objects w)
        as Hheap.
      rewrite Hfirst in Hheap. cbn [resWorld] in Hheap.
      exists evs. repeat split; try assumption.
      apply emitted_app. exact Ht. }
  destruct Hstart as (evs1 & Hem1 & Hi1 & Hc1 & Hheap1).
  assert (Hfirst' : first = Normal u1 w1) by (rewrite Hf; exact Hfirst).
  assert (Hupdate : HardcodedScene.update (HardcodedScene.setStarted old) w1 =
                    forOf updateObject objects w1)
    by (unfold HardcodedScene.update, bind, readArray, objects; simpl;
        rewrite Hheap1; reflexivity).
  rewrite Hupdate in *.
  destruct (loop_normal OnUpdate noEv noFx updateObject updateObject_eq no_calls _ _ Hsecond)
    as (evs2 & Ht2 & Hc2 & Hi2 & _).
  rewrite Hfirst', Hem1, Hsecond, (emitted_app w1 (Normal u2 w2) evs2 Ht2).
  rewrite invocations_app, sceneCalls_app, Hi1, Hi2, Hc1, Hc2.
  repeat split.
  clear. induction objects; simpl; auto.
Qed.

Lemma hardcoded_first_frame_witness :
  let old := HardcodedScene.mk "navy" 0 false None in
  let w := blankWorld 800 400 [actor 2; sprite 1; actor 1] in
  let first := snd (HardcodedScene._start old w) in
  let second := HardcodedScene.update (fst (HardcodedScene._start old w)) (resWorld first) in
  invocations (emitted w first ++ emitted (resWorld first) second) =
  [(OnStart, actor 2); (OnStart, actor 1); (OnUpdate, actor 2); (OnUpdate, actor 1)].
Proof.
  cbv zeta.
  destruct (snd (HardcodedScene._start (HardcodedScene.mk "navy" 0 false None)
                   (blankWorld 800 400 [actor 2; sprite 1; actor 1])))
    as [u1 w1|e w1] eqn:Hfirst; [|vm_compute in Hfirst; discriminate Hfirst].
  cbn [resWorld].
  destruct (HardcodedScene.update
              (fst (HardcodedScene._start (HardcodedScene.mk "navy" 0 false None)
                      (blankWorld 800 400 [actor 2; sprite 1; actor 1]))) w1)
    as [u2 w2|e w2] eqn:Hsecond.
  - pose proof (hardcoded_first_frame (HardcodedScene.mk "navy" 0 false None)
                  (blankWorld 800 400 [actor 2; sprite 1; actor 1]) eq_refl
                  Hfirst Hsecond) as H.
    cbv zeta in H. rewrite Hfirst, Hsecond in H. exact (proj1 H).
  - exfalso. vm_compute in Hfirst. injection Hfirst as Hu Hw. subst w1.
    vm_compute in Hsecond. discriminate Hsecond.
Defined.

Module KeyboardRuns.

Import KeyboardComponent KeyboardFacts.

Lemma update_keeps_axis (keysDown : list string) (deltaTime : float)
    (this : t) (store : list Position) :
  distinctDirections this /\ movesAlongAxis this /\ nextBodyPart this = None ->
  let this' := fst (update keysDown deltaTime this store) in
  distinctDirections this' /\ movesAlongAxis this' /\ nextBodyPart this' = None.
Proof.
  intros (Hd & Hm & Hb). cbv zeta. rewrite update_shape. cbv zeta.
  pose proof (readKeys_nextMove keysDown this) as Hk.
  set (m := nextMove (readKeys keysDown this)) in *.
  assert (Hin : In m [up this; down this; left this; right this]).
  { rewrite Hk.
    destruct (includes keysDown "ArrowDown"); [simpl; auto|].
    destruct (includes keysDown "ArrowUp"); [simpl; auto|].
    destruct (includes keysDown "ArrowRight"); [simpl; auto|].
    destruct (includes keysDown "ArrowLeft"); [simpl; auto|].
    exact Hm. }
  destruct (timeLeftToMove this - deltaTime <=? 0)%float; cbn [fst];
    (split; [exact Hd | split; [exact Hin | exact Hb]]).
Qed.

(** X17. A component as the constructor makes it has four different
    directions, moves down, and has no body part; whatever the frames
    are, it goes on having four different directions and a move that is
    one of them, and it never writes to a transform other than its own:
    every other transform is where it was. *)
Theorem constructed_component_invariant
    (frames : list (list string * float)) (tr : Loc) (store : list Position) :
  let run := updates frames (constructor tr) store in
  distinctDirections (fst run) /\
  movesAlongAxis (fst run) /\
  transform (fst run) = tr /\
  (forall a, a <> tr -> position (snd run) a = position store a).
Proof.
  cbv zeta.
  assert (Hinit : distinctDirections (constructor tr) /\
                  movesAlongAxis (constructor tr) /\
                  nextBodyPart (constructor tr) = None).
  { unfold distinctDirections, movesAlongAxis. simpl.
    repeat split; auto.
    repeat constructor; simpl; intuition discriminate. }
  assert (Htr : transform (constructor tr) = tr) by reflexivity.
  revert Hinit Htr. generalize (constructor tr) as this. revert store.
  induction frames as [|[keys dt] frames IH]; intros store this Hinv Htr.
  - cbn [updates fst snd]. destruct Hinv as (Hd & Hm & _). auto.
  - cbn [updates].
    pose proof (@update_keeps_axis keys dt this store Hinv) as Hnext. cbv zeta in Hnext.
    assert (Hsame : transform (fst (update keys dt this store)) = tr).
    { rewrite update_shape. cbv zeta.
      destruct (timeLeftToMove this - dt <=? 0)%float; exact Htr. }
    assert (Hrest : forall a, a <> tr ->
               position (snd (update keys dt this store)) a = position store a).
    { intros a Ha. rewrite update_shape. cbv zeta.
      destruct (timeLeftToMove this - dt <=? 0)%float; cbn [snd]; [|reflexivity].
      rewrite moveBody_other, moveHead_other.
      - reflexivity.
      - simpl. congruence.
      - simpl. destruct Hinv as (_ & _ & ->). discriminate. }
    destruct (update keys dt this store) as [this' store']. cbn [fst snd] in *.
    destruct (IH store' this' Hnext Hsame) as (Hd & Hm & Ht & Hpos).
    repeat split; try assumption.
    intros a Ha. rewrite (Hpos a Ha). apply Hrest, Ha.
Qed.

Lemma constructed_component_invariant_witness :
  position (snd (updates [(["ArrowRight"%string], 1%float); ([], 1%float)]
                   (constructor 0) snakeStore)) 1
  = mkPosition 50 40.
Proof.
  destruct (constructed_component_invariant
              [(["ArrowRight"%string], 1%float); ([], 1%float)] 0 snakeStore)
    as (_ & _ & _ & H).
  exact (H 1 (fun E => Nat.neq_succ_0 0 E)).
Defined.

End KeyboardRuns.
